(** * CyberDesk: the application-catalog pipeline of [cyberdesk_main.py]

    A shallow embedding of the icon resolver ([find_real_icon_path]), the
    descriptor parser ([CyberDesk.parse_desktop]), the catalog builder
    ([CyberDesk.load_apps]) and the launch executor ([AppIcon.launch_app]),
    followed by the properties of the catalog they produce. *)

From Stdlib Require Import NArith List String Ascii Lia Permutation Sorted.
From stdpp Require Import base option list gmap.

Set Default Proof Using "Type".

(** ** Python strings

    A Python [str] is a sequence of Unicode code points; a code point is a
    number.  Literals of the source that are plain ASCII are written with
    [lit]; the glyphs of [ICON_MAP] are written as their code points. *)

Abbreviation str := (list N).

Fixpoint lit (s : string) : str :=
  match s with
  | EmptyString => []
  | String a r => N_of_ascii a :: lit r
  end.
Arguments lit s%_string.

(** [not s] for a string: true exactly for the empty string. *)
Definition is_empty {A} (s : list A) : bool :=
  match s with [] => true | _ => false end.

Definition str_eqb (a b : str) : bool := bool_decide (a = b).

(** [s.startswith(p)] *)
Fixpoint startswith (s p : str) : bool :=
  match p, s with
  | [], _ => true
  | _ :: _, [] => false
  | c :: p', d :: s' => (c =? d)%N && startswith s' p'
  end.

(** [k in s] for strings: [k] occurs as a contiguous substring of [s]. *)
Fixpoint contains (s k : str) : bool :=
  startswith s k ||
  match s with
  | [] => false
  | _ :: s' => contains s' k
  end.

(** [sep.join(parts)] *)
Fixpoint join (sep : str) (parts : list str) : str :=
  match parts with
  | [] => []
  | [p] => p
  | p :: rest => p ++ sep ++ join sep rest
  end.

(** [s.split(c)] for a one-character separator [c]: never empty. *)
Fixpoint split_on (c : N) (s : str) : list str :=
  match s with
  | [] => [[]]
  | d :: s' =>
      if (d =? c)%N then [] :: split_on c s'
      else match split_on c s' with
           | [] => [[d]]
           | w :: ws => (d :: w) :: ws
           end
  end.

(** The code points for which [str.isspace] holds: what [str.strip()] and
    [str.split()] without arguments treat as whitespace. *)
Definition py_isspace (c : N) : bool :=
  ((9 <=? c) && (c <=? 13) || (28 <=? c) && (c <=? 32) ||
   (c =? 133) || (c =? 160) || (c =? 5760) ||
   (8192 <=? c) && (c <=? 8202) ||
   (c =? 8232) || (c =? 8233) || (c =? 8239) || (c =? 8287) ||
   (c =? 12288))%N.

Fixpoint lstrip (s : str) : str :=
  match s with
  | [] => []
  | c :: s' => if py_isspace c then lstrip s' else s
  end.

(** [s.strip()] *)
Definition strip (s : str) : str := rev (lstrip (rev (lstrip s))).

(** [s.split()] without arguments: the maximal runs of non-whitespace.
    [cur] is the run being read, in reverse. *)
Fixpoint split_ws_aux (s : str) (cur : str) : list str :=
  match s with
  | [] => if is_empty cur then [] else [rev cur]
  | c :: s' =>
      if py_isspace c
      then (if is_empty cur then split_ws_aux s' []
            else rev cur :: split_ws_aux s' [])
      else split_ws_aux s' (c :: cur)
  end.

Definition split_ws (s : str) : list str := split_ws_aux s [].

(** Comparison of strings, [a < b]: lexicographic on code points. *)
Fixpoint str_ltb (a b : str) : bool :=
  match a, b with
  | _, [] => false
  | [], _ :: _ => true
  | c :: a', d :: b' => (c <? d)%N || (c =? d)%N && str_ltb a' b'
  end.

(** [str.lower] and [str.upper] are the interpreter's Unicode case
    mappings.  The pipeline is stated over any such pair; [ascii_case]
    below is the mapping restricted to ASCII, on which every concrete run of
    this file is made. *)
Class CaseMap := {
  str_lower : str -> str;
  str_upper : str -> str
}.

Definition ascii_lower_char (c : N) : N :=
  if ((65 <=? c) && (c <=? 90))%N then (c + 32)%N else c.
Definition ascii_upper_char (c : N) : N :=
  if ((97 <=? c) && (c <=? 122))%N then (c - 32)%N else c.

Definition ascii_case : CaseMap :=
  {| str_lower := map ascii_lower_char; str_upper := map ascii_upper_char |}.

(** ** [shlex.split]

    The tokenizer of the standard library in the configuration
    [shlex.split] uses: POSIX mode, [whitespace_split], no comment
    characters, no punctuation characters.  [None] stands for the
    [ValueError] it raises on an unclosed quotation or a trailing escape. *)

Inductive lex_state :=
| St_ws                (* state ' ' : between tokens *)
| St_word              (* state 'a' : inside a word *)
| St_quote (q : N)     (* state is a quote character *)
| St_escape (e : N).   (* state is the escape character *)

Definition shlex_whitespace (c : N) : bool :=
  ((c =? 32) || (c =? 9) || (c =? 13) || (c =? 10))%N.
Definition shlex_quotes (c : N) : bool := ((c =? 39) || (c =? 34))%N.
Definition shlex_escape (c : N) : bool := (c =? 92)%N.
Definition shlex_escapedquotes (c : N) : bool := (c =? 34)%N.

Definition is_quote_state (s : lex_state) : bool :=
  match s with St_quote _ => true | _ => false end.

(** One pass over the input.  [st] is [self.state], [token] is
    [self.token]; [escapedstate] and [quoted] are the locals of
    [read_token], reset each time a token is emitted; [out] collects the
    tokens already returned. *)
Fixpoint shlex_run (inp : str) (st escapedstate : lex_state)
    (token : str) (quoted : bool) (out : list str) : option (list str) :=
  match inp with
  | [] =>
      match st with
      | St_ws | St_word =>
          (* end of input: the pending token is returned unless it is an
             unquoted empty one, then the iteration stops *)
          Some (if negb quoted && is_empty token then out else out ++ [token])
      | St_quote _ => None        (* No closing quotation *)
      | St_escape _ => None       (* No escaped character *)
      end
  | c :: rest =>
      match st with
      | St_ws =>
          if shlex_whitespace c then
            if negb (is_empty token) || quoted
            then shlex_run rest St_ws St_ws [] false (out ++ [token])
            else shlex_run rest St_ws escapedstate token quoted out
          else if shlex_escape c then
            shlex_run rest (St_escape c) St_word token quoted out
          else if shlex_quotes c then
            shlex_run rest (St_quote c) escapedstate token quoted out
          else
            shlex_run rest St_word escapedstate [c] quoted out
      | St_quote q =>
          if (c =? q)%N then
            shlex_run rest St_word escapedstate token true out
          else if shlex_escape c && shlex_escapedquotes q then
            shlex_run rest (St_escape c) (St_quote q) token true out
          else
            shlex_run rest (St_quote q) escapedstate (token ++ [c]) true out
      | St_escape e =>
          let token' :=
            if is_quote_state escapedstate
               && negb (c =? e)%N
               && negb (match escapedstate with
                        | St_quote q => (c =? q)%N
                        | _ => false
                        end)
            then token ++ [e] else token in
          shlex_run rest escapedstate escapedstate (token' ++ [c]) quoted out
      | St_word =>
          if shlex_whitespace c then
            if negb (is_empty token) || quoted
            then shlex_run rest St_ws St_ws [] false (out ++ [token])
            else shlex_run rest St_ws escapedstate token quoted out
          else if shlex_quotes c then
            shlex_run rest (St_quote c) escapedstate token quoted out
          else if shlex_escape c then
            shlex_run rest (St_escape c) St_word token quoted out
          else
            shlex_run rest St_word escapedstate (token ++ [c]) quoted out
      end
  end.

Definition shlex_split (s : str) : option (list str) :=
  shlex_run s St_ws St_ws [] false [].

(** ** [pathlib]

    A pure POSIX path as [pathlib] holds it: the root (empty, [/] or [//])
    and the components, with empty and [.] components dropped. *)

Record Path := mkPath { p_root : str; p_tail : list str }.

#[global] Instance Path_eq_dec : EqDecision Path.
Proof. solve_decision. Defined.

Definition slash : N := 47.
Definition dot : N := 46.

(** [posixpath.splitroot]: exactly two leading slashes are kept as the
    root, one or three and more make the root a single slash. *)
Definition splitroot (s : str) : str * str :=
  match s with
  | 47%N :: 47%N :: 47%N :: rest => ([slash], slash :: slash :: rest)
  | 47%N :: 47%N :: rest => ([slash; slash], rest)
  | 47%N :: rest => ([slash], rest)
  | _ => ([], s)
  end.

Definition is_component (x : str) : bool :=
  negb (is_empty x) && negb (str_eqb x [dot]).

(** [Path(s)] *)
Definition Path_of (s : str) : Path :=
  let '(root, rel) := splitroot s in
  mkPath root (List.filter is_component (split_on slash rel)).

(** [p.is_absolute()] *)
Definition is_absolute (p : Path) : bool := negb (is_empty (p_root p)).

(** [str(p)] *)
Definition path_str (p : Path) : str :=
  if is_empty (p_root p) && is_empty (p_tail p) then [dot]
  else p_root p ++ join [slash] (p_tail p).

(** [p / s] *)
Definition path_div (p : Path) (s : str) : Path :=
  let q := Path_of s in
  if is_absolute q then q else mkPath (p_root p) (p_tail p ++ p_tail q).

Infix "//" := path_div (at level 40, left associativity).

(** [p.name]: the last component, or the empty string. *)
Definition path_name (p : Path) : str := List.last (p_tail p) [].

(** [name.rfind('.')], as a position or [None] for -1. *)
Fixpoint rfind_dot (name : str) : option nat :=
  match name with
  | [] => None
  | c :: rest =>
      match rfind_dot rest with
      | Some i => Some (S i)
      | None => if (c =? dot)%N then Some 0 else None
      end
  end.

(** [p.stem]: the name without its last suffix; a leading or a trailing
    dot does not start a suffix. *)
Definition path_stem (p : Path) : str :=
  let name := path_name p in
  match rfind_dot name with
  | Some i =>
      if (0 <? i) && (i <? length name - 1) then take i name else name
  | None => name
  end.

(** ** The world the program reads

    Everything the pipeline asks of its environment, as one value that stays
    fixed while the filesystem is unchanged: the home directory, which
    paths exist, what [glob("*.desktop")] enumerates in a directory (in the
    order the directory lists them), what [ConfigParser.read] makes of a
    file, the environment variable [XDG_CONFIG_HOME], what [json.load] makes
    of a file ([None] when it raises), which commands [shutil.which] finds,
    and the message of the exception [subprocess.Popen] raises for an
    argument vector, if it does. *)

(** The outcome of [cfg.read(path)]: an exception, or the parsed file as
    [ConfigParser] stores it: the [DEFAULT] options and the sections, the
    option names already lower-cased by [optionxform]. *)
Inductive cfg_result :=
| CfgRaise
| CfgOk (defaults : list (str * str)) (sections : list (str * list (str * str))).

#[local] Unset Elimination Schemes.
(** A JSON document as [json.load] returns it. *)
Inductive json :=
| JObject (items : list (str * json))
| JArray (elems : list json)
| JString (s : str)
| JNumber (digits : str)
| JBool (b : bool)
| JNull.
#[local] Set Elimination Schemes.

Record World := {
  home : Path;
  path_exists : Path -> bool;
  glob_desktop : Path -> list Path;
  cfg_read : Path -> cfg_result;
  xdg_config_home : option str;
  json_load : Path -> option json;
  which : str -> bool;
  popen_error : list str -> option str
}.

(** A dictionary written as the list of its items, first binding found. *)
Fixpoint assoc {V} (k : str) (d : list (str * V)) : option V :=
  match d with
  | [] => None
  | (k', v) :: d' => if str_eqb k k' then Some v else assoc k d'
  end.

(** A loop whose body may [return]: the first iteration that returns
    decides, the others having fallen through to the next one. *)
Fixpoint for_first {A B} (l : list A) (body : A -> option B) : option B :=
  match l with
  | [] => None
  | x :: l' =>
      match body x with
      | Some r => Some r
      | None => for_first l' body
      end
  end.

(** ** Constants of the module *)

Definition DESKTOP_PATHS (w : World) : list Path :=
  [ Path_of (lit "/usr/share/applications");
    home w // lit ".local/share/applications" ].

Definition ICON_MAP : list (str * str) :=
  [ (lit "firefox", [0xf269]); (lit "chrome", [0xf268]);
    (lit "brave", [0xe768]); (lit "code", [0xe70c]);
    (lit "neovim", [0xe62b]); (lit "vim", [0xe62b]);
    (lit "terminal", [0xf120]); (lit "kitty", [0x1f431]);
    (lit "alacritty", [0xf120]); (lit "urxvt", [0xf120]);
    (lit "files", [0xf07c]); (lit "folder", [0xf07c]);
    (lit "nautilus", [0xf07c]); (lit "thunar", [0xf07c]);
    (lit "dolphin", [0xf07c]);
    (lit "settings", [0xf013]); (lit "control", [0x1f39a; 0xfe0f]);
    (lit "qt", [0xf1fc]); (lit "rofi", [0xf002]); (lit "run", [0xf002]);
    (lit "vlc", [0xf008]); (lit "mpv", [0xf008]); (lit "obs", [0xf03d]);
    (lit "monitor", [0xf080]); (lit "btop", [0xf080]);
    (lit "discord", [0xfb6e]); (lit "spotify", [0xf1bc]);
    (lit "steam", [0xf1b6]);
    (lit "waypaper", [0xf03e]); (lit "wallpaper", [0xf03e]);
    (lit "nitrogen", [0xf03e]);
    (lit "xournal", [0xf040]); (lit "draw", [0xf040]);
    (lit "paint", [0xf1c5]); (lit "gimp", [0xf1c5]);
    (lit "uuctl", [0xf287]); (lit "usb", [0xf287]) ]%N.

(** ** Catalog entries and the application state *)

(** The dictionary [parse_desktop] returns, one field per key. *)
Record AppEntry := {
  app_id : str;               (* "id" *)
  Name : str;                 (* "Name" *)
  Exec : str;                 (* "Exec" *)
  icon : str;                 (* "icon" *)
  icon_path : option str;     (* "icon_path" *)
  terminal : bool             (* "terminal" *)
}.

#[global] Instance AppEntry_eq_dec : EqDecision AppEntry.
Proof. solve_decision. Defined.

(** The attributes [CyberDesk.__init__] sets. *)
Record CyberDesk := {
  apps : list AppEntry;
  icons_override : json;
  page_offset : Z
}.

Definition percent : N := 37.

(** ** Exceptions

    The one exception the catalog builder can let escape, and the result of
    a computation that may raise it. *)
Inductive exn := UnboundLocalError (var : string).

Inductive result (A : Type) :=
| Ok (a : A)
| Raise (e : exn).
Arguments Ok {A} a.
Arguments Raise {A} e.

#[global] Instance result_ret : MRet result := fun _ x => Ok x.
#[global] Instance result_bind : MBind result := fun _ _ f m =>
  match m with
  | Ok a => f a
  | Raise e => Raise e
  end.
#[global] Instance result_fmap : FMap result := fun _ _ f m =>
  match m with
  | Ok a => Ok (f a)
  | Raise e => Raise e
  end.

Section Pipeline.
Context {cm : CaseMap}.

(** ** [find_real_icon_path] *)

Definition search_roots (w : World) : list Path :=
  [ Path_of (lit "/usr/share/pixmaps");
    Path_of (lit "/usr/share/icons/hicolor");
    Path_of (lit "/usr/share/icons/Adwaita");
    Path_of (lit "/usr/share/icons/breeze");
    Path_of (lit "/usr/share/icons/Papirus");
    home w // lit ".local/share/icons" ].

Definition resolutions : list str :=
  [lit "256x256"; lit "128x128"; lit "64x64"; lit "48x48"; lit "scalable"].
Definition subdirs : list str :=
  [lit "apps"; lit "categories"; lit "places"; lit "devices"].
Definition extensions : list str :=
  [lit ".png"; lit ".svg"; lit ".jpg"; lit ".ico"].

Definition find_real_icon_path (w : World) (icon_name : str) : option str :=
  if is_empty icon_name then None else
  let path_obj := Path_of icon_name in
  if is_absolute path_obj && path_exists w path_obj
  then Some (path_str path_obj) else
  let clean_name := path_stem path_obj in
  (* 1. the root itself *)
  match
    for_first (search_roots w) (fun root =>
      if negb (path_exists w root) then None else
      for_first extensions (fun ext =>
        let direct := root // (clean_name ++ ext) in
        if path_exists w direct then Some (path_str direct) else None))
  with
  | Some found => Some found
  | None =>
    (* 2. the sub-directories *)
    for_first (search_roots w) (fun root =>
      if negb (path_exists w root) then None else
      for_first resolutions (fun res =>
        for_first subdirs (fun sub =>
          for_first extensions (fun ext =>
            let candidate := root // res // sub // (clean_name ++ ext) in
            if path_exists w candidate then Some (path_str candidate) else
            let candidate_lower :=
              root // res // sub // (str_lower clean_name ++ ext) in
            if path_exists w candidate_lower
            then Some (path_str candidate_lower) else None))))
  end.

(** ** [CyberDesk.parse_desktop] *)

(** [entry.get(option, fallback)] on a section proxy: the option name goes
    through [optionxform], the section is searched before the defaults. *)
Definition entry_get (defaults opts : list (str * str))
    (option fallback : str) : str :=
  let key := str_lower option in
  match assoc key opts with
  | Some v => v
  | None =>
      match assoc key defaults with
      | Some v => v
      | None => fallback
      end
  end.

(** The normalisation of the [Exec] value. *)
Definition clean_exec (raw_exec : str) : str :=
  if is_empty raw_exec then [] else
  match shlex_split raw_exec with
  | Some toks =>
      let parts := List.filter (fun p => negb (startswith p [percent])) toks in
      join (lit " ") parts
  | None => strip (List.hd [] (split_on percent raw_exec))
  end.

(** The fallback glyph, computed from the cleaned command, the raw icon name
    and the display name. *)
Definition glyph_for (real_icon_path : option str)
    (exec_clean icon_name name : str) : str :=
  let icon_char := lit "?" in
  if match real_icon_path with None => true | Some s => is_empty s end then
    let lower_name := str_lower (exec_clean ++ lit " " ++ icon_name) in
    let icon_char :=
      match for_first ICON_MAP (fun '(k, v) =>
              if contains lower_name k then Some v else None) with
      | Some v => v
      | None => icon_char
      end in
    if str_eqb icon_char (lit "?") then str_upper (take 1 name) else icon_char
  else icon_char.

Definition parse_desktop (self : CyberDesk) (w : World) (path : Path)
    : option AppEntry :=
  match cfg_read w path with
  | CfgRaise => None
  | CfgOk defaults sections =>
      match assoc (lit "Desktop Entry") sections with
      | None => None
      | Some entry =>
          let get := entry_get defaults entry in
          if str_eqb (str_lower (get (lit "NoDisplay") (lit "false")))
                     (lit "true")
          then None else
          let name := get (lit "Name") (path_stem path) in
          let raw_exec := get (lit "Exec") [] in
          let icon_name := get (lit "Icon") [] in
          let term_val := str_lower (get (lit "Terminal") (lit "false")) in
          let is_terminal :=
            str_eqb term_val (lit "true") || str_eqb term_val (lit "1") in
          let exec_clean := clean_exec raw_exec in
          let real_icon_path := find_real_icon_path w icon_name in
          let icon_char :=
            glyph_for real_icon_path exec_clean icon_name name in
          Some {| app_id := path_stem path;
                  Name := name;
                  Exec := exec_clean;
                  icon := icon_char;
                  icon_path := real_icon_path;
                  terminal := is_terminal |}
      end
  end.

(** ** [CyberDesk.load_apps] *)

(** [sorted(l, key=key)]: the stable sort by [<] on the keys.  An element
    is put before the first one whose key is not smaller than its own, so
    that it stays ahead of the equal keys that followed it. *)
Fixpoint sorted_insert {A} (key : A -> str) (x : A) (l : list A) : list A :=
  match l with
  | [] => [x]
  | y :: l' =>
      if str_ltb (key y) (key x) then y :: sorted_insert key x l'
      else x :: y :: l'
  end.

Fixpoint sorted {A} (key : A -> str) (l : list A) : list A :=
  match l with
  | [] => []
  | x :: l' => sorted_insert key x (sorted key l')
  end.


(** The local variables of [load_apps].  [seen] and [filtered] are bound by
    the last two statements of the body of the loop over [DESKTOP_PATHS],
    so they are unbound as long as no iteration got that far. *)
Record locals := {
  l_apps : list AppEntry;
  l_seen : option (gset (str * str));
  l_filtered : option (list AppEntry)
}.

(** Reading a local variable. *)
Definition read_local {A} (name : string) (v : option A) : result A :=
  match v with
  | Some x => Ok x
  | None => Raise (UnboundLocalError name)
  end.

(** The body of [for d in DESKTOP_PATHS]. *)
Definition scan_dir (self : CyberDesk) (w : World) (loc : locals) (d : Path)
    : locals :=
  if negb (path_exists w d) then loc (* continue *) else
  let apps :=
    foldl (fun apps p =>
             match parse_desktop self w p with
             | Some data => apps ++ [data]
             | None => apps
             end) (l_apps loc) (glob_desktop w d) in
  {| l_apps := apps; l_seen := Some ∅; l_filtered := Some [] |}.

(** The body of [for a in apps]. *)
Definition dedup_step (st : result locals) (a : AppEntry) : result locals :=
  loc ← st;
  let key := (Name a, Exec a) in
  seen ← read_local "seen" (l_seen loc);
  if decide (key ∈ seen) then Ok loc else
  filtered ← read_local "filtered" (l_filtered loc);
  Ok {| l_apps := l_apps loc;
        l_seen := Some ({[ key ]} ∪ seen);
        l_filtered := Some (filtered ++ [a]) |}.

(** The entry shown when nothing was found: a shell in a terminal. *)
Definition fallback_entry : AppEntry :=
  {| app_id := lit "1"; Name := lit "Term"; Exec := lit "bash";
     icon := [0xf120%N]; icon_path := None; terminal := true |}.

Definition sort_key (x : AppEntry) : str := str_lower (Name x).

Definition load_apps (self : CyberDesk) (w : World) : result CyberDesk :=
  let loc := {| l_apps := []; l_seen := None; l_filtered := None |} in
  let loc := foldl (scan_dir self w) loc (DESKTOP_PATHS w) in
  loc ← foldl dedup_step (Ok loc) (l_apps loc);
  filtered ← read_local "filtered" (l_filtered loc);
  let new_apps := sorted sort_key filtered in
  let new_apps := if is_empty new_apps then [fallback_entry] else new_apps in
  Ok {| apps := new_apps;
        icons_override := icons_override self;
        page_offset := page_offset self |}.

(** ** [load_icon_overrides] and [CyberDesk.__init__] *)

Definition CONFIG_DIR (w : World) : Path :=
  match xdg_config_home w with
  | Some d => Path_of d
  | None => home w // lit ".config"
  end // lit "cyberdesk".

Definition load_icon_overrides (w : World) (path : Path) : json :=
  if negb (path_exists w path) then JObject [] else
  match json_load w path with
  | Some j => j
  | None => JObject []
  end.

Definition CyberDesk_init (w : World) : CyberDesk :=
  {| apps := [];
     icons_override := load_icon_overrides w (CONFIG_DIR w // lit "icons.json");
     page_offset := 0 |}.

End Pipeline.

(** ** [AppIcon] and [AppIcon.launch_app] *)

Record AppIcon := {
  icon_app_id : str;                 (* self.app_id *)
  app_name : str;
  icon_char : str;
  command : str;
  icon_file_path : option str;
  is_terminal : bool
}.

(** [x or default] on strings. *)
Definition str_or (x default : str) : str :=
  if is_empty x then default else x.

(** [AppIcon.__init__] *)
Definition AppIcon_init (app_id label icon command : str)
    (icon_path : option str) (terminal : bool) : AppIcon :=
  {| icon_app_id := app_id;
     app_name := str_or label (lit "Unknown");
     icon_char := str_or icon (lit "?");
     command := command;
     icon_file_path := icon_path;
     is_terminal := terminal |}.

(** The widget [render_icons] builds for a catalog entry. *)
Definition AppIcon_of_entry (app : AppEntry) : AppIcon :=
  AppIcon_init (app_id app) (Name app) (icon app) (Exec app)
               (icon_path app) (terminal app).

(** What [launch_app] does to the outside, in order: lines appended to the
    debug log, notifications, look-ups on the search path and process
    creation.  The log lines are kept by what they say, not by their text. *)
Inductive log_msg :=
| LogClick (command : str)
| LogNeedsTerminal (b : bool)
| LogNoCommand
| LogSearchTerminal
| LogFoundTerminal (term : str)
| LogFinalCommand (cmd_parts : list str)
| LogNoTerminal
| LogNotInPath (executable : str)
| LogSpawning
| LogSpawned
| LogPopenException (e : str).

Inductive severity := Information | Error.

Inductive event :=
| ELog (m : log_msg)
| ENotify (message : str) (sev : severity)
| EWhich (cmd : str)
| EPopen (argv : list str).

#[global] Instance log_msg_eq_dec : EqDecision log_msg.
Proof. solve_decision. Defined.
#[global] Instance severity_eq_dec : EqDecision severity.
Proof. solve_decision. Defined.
#[global] Instance event_eq_dec : EqDecision event.
Proof. solve_decision. Defined.

Definition terminals : list (str * str) :=
  [ (lit "x-terminal-emulator", lit "-e");
    (lit "gnome-terminal", lit "--");
    (lit "kitty", lit "-e");
    (lit "alacritty", lit "-e");
    (lit "xfce4-terminal", lit "-x");
    (lit "konsole", lit "-e");
    (lit "terminator", lit "-x");
    (lit "xterm", lit "-e") ].

(** The loop over [terminals]: the look-ups made, and [found_term]. *)
Fixpoint probe_terminals (w : World) (ts : list (str * str))
    : list event * option (str * str) :=
  match ts with
  | [] => ([], None)
  | (term, flag) :: ts' =>
      if which w term
      then ([EWhich term; ELog (LogFoundTerminal term)], Some (term, flag))
      else let '(evs, found) := probe_terminals w ts' in
           (EWhich term :: evs, found)
  end.

Definition cross_mark : N := 0x274c.
Definition rocket : N := 0x1f680.

Definition msg_no_terminal : str :=
  cross_mark :: lit " Nessun terminale trovato!".

(** From the resolution of the executable on: the tail of [launch_app]. *)
Definition spawn (w : World) (self : AppIcon) (cmd_parts : list str)
    : list event :=
  let executable := List.hd [] cmd_parts in
  if negb (which w executable) then
    [ EWhich executable;
      ELog (LogNotInPath executable);
      ENotify (cross_mark :: lit " Non trovato: " ++ executable) Error ]
  else
    [ EWhich executable;
      ENotify (rocket :: lit " " ++ app_name self) Information;
      ELog LogSpawning;
      EPopen cmd_parts ] ++
    match popen_error w cmd_parts with
    | None => [ ELog LogSpawned ]
    | Some e => [ ELog (LogPopenException e);
                  ENotify (cross_mark :: lit " " ++ e) Error ]
    end.

(** The tokens of a command: [shlex.split], or the plain split on
    whitespace when that raises. *)
Definition split_command (command : str) : list str :=
  match shlex_split command with
  | Some parts => parts
  | None => split_ws command
  end.

Definition launch_app (w : World) (self : AppIcon) : list event :=
  [ ELog (LogClick (command self));
    ELog (LogNeedsTerminal (is_terminal self)) ] ++
  if is_empty (command self) then [ ELog LogNoCommand ] else
  let cmd_parts := split_command (command self) in
  if is_empty cmd_parts then [] else
  if is_terminal self then
    ELog LogSearchTerminal ::
    let '(probes, found_term) := probe_terminals w terminals in
    probes ++
    match found_term with
    | Some (term_exe, term_flag) =>
        let prefix :=
          if negb (is_empty term_flag) then [term_exe; term_flag]
          else [term_exe] in
        let cmd_parts := prefix ++ cmd_parts in
        ELog (LogFinalCommand cmd_parts) :: spawn w self cmd_parts
    | None =>
        [ ELog LogNoTerminal; ENotify msg_no_terminal Error ]
    end
  else spawn w self cmd_parts.

(** ** The words of the specification

    What the specification calls the combined parse results, the
    deduplication key, the set of first occurrences and the candidates of the
    icon resolver, written down as it describes them, to be compared with the
    loops above. *)

Section SpecWords.
Context {cm : CaseMap}.

(** The key of the deduplication. *)
Definition entry_key (a : AppEntry) : str * str := (Name a, Exec a).

(** The parse results of one directory, in the order of its listing. *)
Definition parsed_dir (self : CyberDesk) (w : World) (d : Path)
    : list AppEntry :=
  omap (parse_desktop self w) (glob_desktop w d).

(** The combined parse results over the directories that exist, in scan
    order. *)
Definition parsed (self : CyberDesk) (w : World) : list AppEntry :=
  concat (map (parsed_dir self w)
              (List.filter (path_exists w) (DESKTOP_PATHS w))).

(** First occurrence wins: an entry is kept unless its key was met. *)
Fixpoint first_occurrences (seen : list (str * str)) (l : list AppEntry)
    : list AppEntry :=
  match l with
  | [] => []
  | a :: l' =>
      if decide (entry_key a ∈ seen) then first_occurrences seen l'
      else a :: first_occurrences (entry_key a :: seen) l'
  end.

(** The candidates of the resolver for a stem under one root: the files
    directly under it, over the extensions; and, bucket by bucket and
    category by category, the exact name and the lower-cased one for each
    extension. *)
Definition direct_under (root : Path) (stem : str) : list Path :=
  ext ← extensions;
  [root // (stem ++ ext)].

Definition themed_under (root : Path) (stem : str) : list Path :=
  res ← resolutions;
  sub ← subdirs;
  ext ← extensions;
  [root // res // sub // (stem ++ ext);
   root // res // sub // (str_lower stem ++ ext)].

(** The candidates in priority order: the direct ones of every root before
    any themed one.  [icon_candidates] takes the roots that exist, as the
    loops do; [all_icon_candidates] takes every root. *)
Definition candidates_in (roots : list Path) (stem : str) : list Path :=
  (roots ≫= λ root, direct_under root stem) ++
  (roots ≫= λ root, themed_under root stem).



Definition icon_candidates (w : World) (stem : str) : list Path :=
  candidates_in (List.filter (path_exists w) (search_roots w)) stem.



(** The probe of one candidate. *)
Definition probe (w : World) (p : Path) : option str :=
  if path_exists w p then Some (path_str p) else None.

(** The value a descriptor declares for a field of its [Desktop Entry]
    section, or the fallback. *)
Definition descriptor_value (w : World) (path : Path) (field fallback : str)
    : str :=
  match cfg_read w path with
  | CfgRaise => fallback
  | CfgOk defaults sections =>
      match assoc (lit "Desktop Entry") sections with
      | Some entry => entry_get defaults entry field fallback
      | None => fallback
      end
  end.

(** The value for the first key of the glyph-keyword table that is a
    substring of a text. *)
Definition first_keyword_glyph (text : str) : option str :=
  snd <$> List.find (λ kv, contains text (fst kv)) ICON_MAP.

(** The catalog made of a list of parse results: deduplicated, sorted by
    lower-cased name, and replaced by the fallback entry when empty. *)
Definition catalog_of (l : list AppEntry) : list AppEntry :=
  let c := sorted sort_key (first_occurrences [] l) in
  if is_empty c then [fallback_entry] else c.

End SpecWords.

(** ** Worlds for concrete runs *)

(** A world given by tables: the paths that exist, the [*.desktop] names
    each directory lists, the outcome of reading each file, and the commands
    on the search path.  A file that is not in the table reads as an empty
    configuration, as [ConfigParser.read] does for a file it cannot open. *)
Definition world_of (home_dir : str) (existing : list str)
    (listing : list (str * list str)) (files : list (str * cfg_result))
    (on_path : list str) : World :=
  {| home := Path_of home_dir;
     path_exists := fun p => bool_decide (path_str p ∈ existing);
     glob_desktop := fun d =>
       match assoc (path_str d) listing with
       | Some names => map (fun n => d // n) names
       | None => []
       end;
     cfg_read := fun p =>
       match assoc (path_str p) files with
       | Some r => r
       | None => CfgOk [] []
       end;
     xdg_config_home := None;
     json_load := fun _ => None;
     which := fun c => bool_decide (c ∈ on_path);
     popen_error := fun _ => None |}.

(** The same world with another content of the JSON files. *)
Definition with_json_load (j : Path -> option json) (w : World) : World :=
  {| home := home w;
     path_exists := path_exists w;
     glob_desktop := glob_desktop w;
     cfg_read := cfg_read w;
     xdg_config_home := xdg_config_home w;
     json_load := j;
     which := which w;
     popen_error := popen_error w |}.

(** A descriptor with one [Desktop Entry] section. *)
Definition opt (k v : string) : str * str := (lit k, lit v).
Arguments opt (k v)%_string.

Definition desktop_file (options : list (str * str)) : cfg_result :=
  CfgOk [] [(lit "Desktop Entry", options)].

Definition self0 : CyberDesk :=
  {| apps := []; icons_override := JObject []; page_offset := 0 |}.

(** Neither descriptor directory exists. *)
Definition world_bare : World :=
  world_of (lit "/home/u") [] [] [] [].

(** Two directories.  [editor] is described in both, with the same name
    and the same cleaned command; [term] in both, with different names and
    commands.  Of the other descriptors one is hidden, one cannot be read,
    one has an empty name, one a field code inside a quoted argument, and
    one a command made of two empty quoted arguments.  An icon for
    [editor] exists both directly under the pixmaps root and in a themed
    sub-directory. *)
Definition world_demo : World :=
  world_of (lit "/home/u")
    [ lit "/usr/share/applications";
      lit "/home/u/.local/share/applications";
      lit "/usr/share/pixmaps";
      lit "/usr/share/icons/hicolor";
      lit "/usr/share/pixmaps/editor.png";
      lit "/usr/share/icons/hicolor/48x48/apps/editor.png";
      lit "/usr/share/icons/hicolor/48x48/apps/zed.svg" ]
    [ (lit "/usr/share/applications",
       [lit "zed.desktop"; lit "editor.desktop"; lit "term.desktop";
        lit "hidden.desktop"; lit "Anon.desktop"; lit "broken.desktop"]);
      (lit "/home/u/.local/share/applications",
       [lit "editor.desktop"; lit "term.desktop"; lit "wrap.desktop";
        lit "alpha.desktop"]) ]
    [ (lit "/usr/share/applications/zed.desktop",
       desktop_file [opt "name" "zed"; opt "exec" "zed %U --flag %f";
                     opt "icon" "zed"]);
      (lit "/usr/share/applications/editor.desktop",
       desktop_file [opt "name" "Editor"; opt "exec" "editor %F";
                     opt "icon" "editor-icon"; opt "terminal" "false"]);
      (lit "/usr/share/applications/term.desktop",
       desktop_file [opt "name" "Top"; opt "exec" "top";
                     opt "terminal" "True"]);
      (lit "/usr/share/applications/hidden.desktop",
       desktop_file [opt "name" "Hidden"; opt "exec" "hidden";
                     opt "nodisplay" "true"]);
      (lit "/usr/share/applications/Anon.desktop",
       desktop_file [(lit "name", []); opt "exec" "anon"]);
      (lit "/usr/share/applications/broken.desktop", CfgRaise);
      (lit "/home/u/.local/share/applications/editor.desktop",
       desktop_file [opt "name" "Editor"; opt "exec" "editor %U";
                     opt "icon" "editor"]);
      (lit "/home/u/.local/share/applications/term.desktop",
       desktop_file [opt "name" "top"; opt "exec" "top -d 1";
                     opt "terminal" "1"]);
      (lit "/home/u/.local/share/applications/wrap.desktop",
       desktop_file [opt "name" "Wrap"; opt "exec" "sh -c 'echo %f'"]);
      (lit "/home/u/.local/share/applications/alpha.desktop",
       desktop_file [opt "exec" "'' ''"; opt "terminal" "true"]) ]
    [ lit "sh"; lit "top" ].

(** One directory with two descriptors, of distinct names and stems. *)
Definition world_single : World :=
  world_of (lit "/home/u")
    [ lit "/usr/share/applications" ]
    [ (lit "/usr/share/applications",
       [lit "zed.desktop"; lit "editor.desktop"]) ]
    [ (lit "/usr/share/applications/zed.desktop",
       desktop_file [opt "name" "App"; opt "exec" "app %U --flag %f"]);
      (lit "/usr/share/applications/editor.desktop",
       desktop_file [opt "name" "Editor"; opt "exec" "editor %F"]) ]
    [].

Definition single_state : CyberDesk :=
  Eval vm_compute in
    match load_apps (cm:=ascii_case) self0 world_single with
    | Ok s => s
    | Raise _ => self0
    end.

(** The catalog built in [world_demo], by running the builder. *)
Definition demo_state : CyberDesk :=
  Eval vm_compute in
    match load_apps (cm:=ascii_case) self0 world_demo with
    | Ok s => s
    | Raise _ => self0
    end.

(** Entries of [world_demo] and [world_single], as the parser returns
    them. *)
Definition demo_editor : AppEntry :=
  {| app_id := lit "editor"; Name := lit "Editor"; Exec := lit "editor";
     icon := lit "E"; icon_path := None; terminal := false |}.

Definition demo_Top : AppEntry :=
  {| app_id := lit "term"; Name := lit "Top"; Exec := lit "top";
     icon := lit "T"; icon_path := None; terminal := true |}.

Definition demo_top : AppEntry :=
  {| app_id := lit "term"; Name := lit "top"; Exec := lit "top -d 1";
     icon := lit "T"; icon_path := None; terminal := true |}.

Definition demo_anon : AppEntry :=
  {| app_id := lit "Anon"; Name := []; Exec := lit "anon";
     icon := []; icon_path := None; terminal := false |}.

Definition demo_blank : AppEntry :=
  {| app_id := lit "alpha"; Name := lit "alpha"; Exec := lit " ";
     icon := lit "A"; icon_path := None; terminal := true |}.

Definition demo_wrap : AppEntry :=
  {| app_id := lit "wrap"; Name := lit "Wrap"; Exec := lit "sh -c echo %f";
     icon := lit "W"; icon_path := None; terminal := false |}.

Definition demo_app : AppEntry :=
  {| app_id := lit "zed"; Name := lit "App"; Exec := lit "app --flag";
     icon := lit "A"; icon_path := None; terminal := false |}.

Definition demo_dir1 : Path := Path_of (lit "/usr/share/applications").
Definition demo_dir2 : Path :=
  Path_of (lit "/home/u/.local/share/applications").

(** ** The grid: [refresh_grid_columns], [change_page], [render_icons] *)

(** What the three methods read of the screen: the number of columns of
    the grid and the size of the terminal.  The methods read them inside a
    [try]; [None] stands for a screen on which reading them raises. *)
Record View := {
  grid_size_columns : Z;
  size_width : Z;
  size_height : Z
}.

Definition CARD_WIDTH : Z := 32.

(** [x or default] on integers. *)
Definition int_or (x default : Z) : Z :=
  if (x =? 0)%Z then default else x.

(** [CyberDesk.refresh_grid_columns]; an exception leaves all as it was. *)
Definition refresh_grid_columns (view : option View) : option View :=
  match view with
  | Some v =>
      let width := size_width v in
      let cols := Z.max 1 ((width - 4) `div` CARD_WIDTH) in
      Some {| grid_size_columns := cols;
              size_width := size_width v;
              size_height := size_height v |}
  | None => None
  end.

(** The page size [change_page] computes. *)
Definition nav_per_page (view : option View) : Z :=
  match view with
  | Some v =>
      let cols := int_or (grid_size_columns v) 3 in
      let rows := Z.max 1 ((size_height v - 6) `div` 14) in
      (cols * rows)%Z
  | None => 12
  end.

(** [CyberDesk.change_page], up to the call of [render_icons]. *)
Definition change_page (self : CyberDesk) (view : option View)
    (direction : Z) : CyberDesk :=
  let per_page := nav_per_page view in
  let offset :=
    if (0 <? direction)%Z
    then Z.min (Z.of_nat (length (apps self)) - per_page)
               (page_offset self + per_page)
    else Z.max 0 (page_offset self - per_page) in
  {| apps := apps self;
     icons_override := icons_override self;
     page_offset := offset |}.

(** The page size [render_icons] computes. *)
Definition render_per_page (view : option View) : Z :=
  match view with
  | Some v =>
      let cols := int_or (grid_size_columns v) 3 in
      let rows := Z.max 1 ((size_height v - 6) `div` 14) in
      Z.max 1 (cols * rows)
  | None => 15
  end.

(** [l[start:stop]] for bounds that are not negative. *)
Definition slice {A} (l : list A) (start stop : Z) : list A :=
  take (Z.to_nat (stop - start)) (drop (Z.to_nat start) l).

(** What [render_icons] puts on the screen: the widgets mounted, in order,
    and the two numbers of the status line. *)
Record Rendered := {
  mounted : list AppIcon;
  status_apps : nat;
  status_page : Z
}.

Definition render_icons (self : CyberDesk) (view : option View) : Rendered :=
  let per_page := render_per_page view in
  let start := Z.max 0 (page_offset self) in
  let stop := Z.min (Z.of_nat (length (apps self))) (start + per_page) in
  let page_apps := slice (apps self) start stop in
  {| mounted := AppIcon_of_entry <$> page_apps;
     status_apps := length (apps self);
     status_page := (start `div` per_page + 1)%Z |}.

(** [CyberDesk.on_mount], up to the deferred [refresh_grid_columns]: the
    catalog is built, then its first page rendered. *)
Definition on_mount `{cm : CaseMap} (self : CyberDesk) (w : World)
    (view : option View) : result (CyberDesk * Rendered) :=
  self' ← load_apps self w;
  Ok (self', render_icons self' view).

(** The key [r] of [CyberDesk.on_key]: the same two steps on the running
    application. *)
Definition reload `{cm : CaseMap} (self : CyberDesk) (w : World)
    (view : option View) : result (CyberDesk * Rendered) :=
  self' ← load_apps self w;
  Ok (self', render_icons self' view).

(** ** The resize debounce: [on_resize]

    Timers are named by numbers.  [resize_timer] is [self._resize_timer],
    [None] while the attribute does not exist; [pending] holds the timers
    that were set and have neither been stopped nor fired; [redraws] counts
    the calls of [redraw_after_resize]. *)
Record ResizeState := {
  resize_timer : option nat;
  pending : gset nat;
  next_timer : nat;
  redraws : nat
}.

Definition resize_init : ResizeState :=
  {| resize_timer := None; pending := ∅; next_timer := 0; redraws := 0 |}.

(** [CyberDesk.on_resize]: stop the timer held, set a new one. *)
Definition on_resize (s : ResizeState) : ResizeState :=
  let pending' :=
    match resize_timer s with
    | Some t => pending s ∖ {[ t ]}
    | None => pending s
    end in
  {| resize_timer := Some (next_timer s);
     pending := {[ next_timer s ]} ∪ pending';
     next_timer := S (next_timer s);
     redraws := redraws s |}.

(** A pending timer elapses: it runs [redraw_after_resize] once. *)
Definition timer_fires (t : nat) (s : ResizeState) : ResizeState :=
  if decide (t ∈ pending s)
  then {| resize_timer := resize_timer s;
          pending := pending s ∖ {[ t ]};
          next_timer := next_timer s;
          redraws := S (redraws s) |}
  else s.

Inductive ui_event := Resize | Elapse (t : nat).

Definition ui_step (s : ResizeState) (e : ui_event) : ResizeState :=
  match e with
  | Resize => on_resize s
  | Elapse t => timer_fires t s
  end.

#[global] Instance ui_event_eq_dec : EqDecision ui_event.
Proof. solve_decision. Defined.

(** The state after a run of events, from the start of the application. *)
Definition ui_run (events : list ui_event) : ResizeState :=
  foldl ui_step resize_init events.

Definition resizes (events : list ui_event) : nat :=
  length (filter (λ e, e = Resize) events).

(** At most the timer held is pending, and each redraw made or still to
    come answers a resize of its own. *)
Definition debounced (s : ResizeState) (k : nat) : Prop :=
  (pending s = ∅ ∧ redraws s ≤ k) ∨
  (∃ t, resize_timer s = Some t ∧ pending s = {[ t ]} ∧ S (redraws s) ≤ k).

(** ** More words for the properties *)

(** A character [shlex] gives no meaning to. *)
Definition shlex_plain (c : N) : bool :=
  negb (shlex_whitespace c || shlex_quotes c || shlex_escape c).

(** A token that reads back as itself: not empty, plain characters only. *)
Definition plain_token (t : str) : Prop :=
  t ≠ [] ∧ Forall (λ c, shlex_plain c = true) t.

Definition is_log (e : event) : bool :=
  match e with ELog _ => true | _ => false end.

Definition is_popen (e : event) : bool :=
  match e with EPopen _ => true | _ => false end.

(** The argument vector of a launch, when all goes well: the tokens of the
    command, after the emulator and its flag for a terminal application. *)
Definition launch_argv (w : World) (self : AppIcon) : option (list str) :=
  let tokens := split_command (command self) in
  if is_empty tokens then None
  else if is_terminal self then
    match List.find (λ tf, which w (fst tf)) terminals with
    | Some (term, flag) => Some (term :: flag :: tokens)
    | None => None
    end
  else Some tokens.

(** A world with one terminal emulator, the third of the list, and the
    shell on the search path. *)
Definition world_kitty : World :=
  world_of (lit "/home/u") [] [] [] [lit "kitty"; lit "xterm"; lit "sh"].

Definition demo_view : View :=
  {| grid_size_columns := 1; size_width := 120; size_height := 40 |}.

(** * Properties *)

(** ** Strings and their order *)

Lemma is_empty_true {A} (l : list A) : is_empty l = true ↔ l = [].
Proof. by destruct l. Qed.

Lemma is_empty_false {A} (l : list A) : is_empty l = false ↔ l ≠ [].
Proof. by destruct l. Qed.

Lemma str_eqb_eq a b : str_eqb a b = true ↔ a = b.
Proof. unfold str_eqb. apply bool_decide_eq_true. Qed.



(** ** [for_first] returns what the first successful iteration returns *)

Lemma for_first_app {A B} (l1 l2 : list A) (body : A → option B) :
  for_first (l1 ++ l2) body =
  match for_first l1 body with
  | Some r => Some r
  | None => for_first l2 body
  end.
Proof.
  induction l1 as [|x l1 IH]; simpl; [done|]. by destruct (body x).
Qed.

Lemma for_first_bind {A B C} (l : list A) (f : A → list B)
    (body : B → option C) :
  for_first (l ≫= f) body = for_first l (λ x, for_first (f x) body).
Proof.
  induction l as [|x l IH]; [done|].
  rewrite bind_cons, for_first_app, IH. done.
Qed.

Lemma for_first_filter {A B} (keep : A → bool) (l : list A)
    (body : A → option B) :
  for_first l (λ x, if negb (keep x) then None else body x) =
  for_first (List.filter keep l) body.
Proof.
  induction l as [|x l IH]; simpl; [done|].
  destruct (keep x); simpl; by rewrite IH.
Qed.

Lemma for_first_ext {A B} (l : list A) (f g : A → option B) :
  (∀ x, f x = g x) → for_first l f = for_first l g.
Proof. intros E. induction l as [|x l IH]; simpl; [done|]. by rewrite E, IH. Qed.

(** A loop that returns the first element passing a test is [find]. *)
Lemma for_first_find {A B} (test : A → bool) (ret : A → B) (l : list A) :
  for_first l (λ x, if test x then Some (ret x) else None) =
  ret <$> List.find test l.
Proof.
  induction l as [|x l IH]; simpl; [done|]. by destruct (test x).
Qed.


(** ** [sorted]: a sorted, stable permutation *)

Section Sorting.
Context {A : Type} (key : A → str).

Lemma sorted_insert_perm x l : sorted_insert key x l ≡ₚ x :: l.
Proof.
  induction l as [|y l IH]; simpl; [done|].
  destruct (str_ltb (key y) (key x)); [|done].
  rewrite IH. apply Permutation_swap.
Qed.

Lemma sorted_perm l : sorted key l ≡ₚ l.
Proof.
  induction l as [|x l IH]; simpl; [done|].
  by rewrite sorted_insert_perm, IH.
Qed.






Lemma sorted_nil l : sorted key l = [] ↔ l = [].
Proof.
  split; [|by intros ->].
  intros E. apply Permutation_nil_r. rewrite <- E. by rewrite sorted_perm.
Qed.

End Sorting.

(** ** The loops of [load_apps] *)

Section Builder.
Context {cm : CaseMap}.

Lemma scan_files self w (l : list Path) (acc : list AppEntry) :
  foldl (λ apps p, match parse_desktop self w p with
                   | Some data => apps ++ [data]
                   | None => apps
                   end) acc l
  = acc ++ omap (parse_desktop self w) l.
Proof.
  revert acc. induction l as [|p l IH]; intros acc; simpl.
  - by rewrite app_nil_r.
  - rewrite IH. destruct (parse_desktop self w p); [|done].
    by rewrite <- app_assoc.
Qed.

(** After the scan the locals are bound exactly when a directory existed,
    and [apps] holds the combined parse results. *)
Lemma scan_dirs self w (ds : list Path) (loc : locals) :
  foldl (scan_dir self w) loc ds =
  let ex := List.filter (path_exists w) ds in
  if is_empty ex then loc
  else {| l_apps := l_apps loc ++ concat (map (parsed_dir self w) ex);
          l_seen := Some ∅; l_filtered := Some [] |}.
Proof.
  revert loc. induction ds as [|d ds IH]; intros loc; simpl; [done|].
  rewrite IH. unfold scan_dir.
  destruct (path_exists w d); simpl; [|done].
  rewrite scan_files. fold (parsed_dir self w d).
  destruct (List.filter (path_exists w) ds) as [|d' ex]; simpl.
  - by rewrite app_nil_r.
  - by rewrite <- !app_assoc.
Qed.

Lemma dedup_steps (l : list AppEntry) :
  ∀ apps0 (S : gset (str * str)) (seenl : list (str * str)) F,
    (∀ k, k ∈ S ↔ k ∈ seenl) →
    ∃ S',
      foldl dedup_step
        (Ok {| l_apps := apps0; l_seen := Some S; l_filtered := Some F |}) l
      = Ok {| l_apps := apps0; l_seen := Some S';
              l_filtered := Some (F ++ first_occurrences seenl l) |}.
Proof.
  induction l as [|a l IH]; intros apps0 S seenl F HS; simpl.
  - exists S. by rewrite app_nil_r.
  - change (Name a, Exec a) with (entry_key a).
    destruct (decide (entry_key a ∈ seenl)) as [Hin|Hnin].
    + rewrite decide_True by (by apply HS). by apply IH.
    + rewrite decide_False by (by rewrite HS).
      destruct (IH apps0 ({[entry_key a]} ∪ S) (entry_key a :: seenl)
                  (F ++ [a])) as [S' ->].
      { intros k. rewrite elem_of_union, elem_of_singleton, elem_of_cons, HS.
        done. }
      exists S'. by rewrite <- app_assoc.
Qed.

(** [load_apps] in one equation: the [UnboundLocalError] when no
    directory exists, the catalog of the combined parse results otherwise. *)
Lemma load_apps_unfold self w :
  load_apps self w =
  if is_empty (List.filter (path_exists w) (DESKTOP_PATHS w))
  then Raise (UnboundLocalError "filtered")
  else Ok {| apps := catalog_of (parsed self w);
             icons_override := icons_override self;
             page_offset := page_offset self |}.
Proof.
  unfold load_apps. rewrite scan_dirs. cbv zeta. fold (parsed self w).
  destruct (List.filter (path_exists w) (DESKTOP_PATHS w)) as [|d ex] eqn:E;
    simpl; [done|].
  destruct (dedup_steps (parsed self w) (parsed self w) ∅ [] []) as [S' ->].
  { intros k. rewrite elem_of_nil. set_solver. }
  done.
Qed.

(** What the builder does never depends on the state it starts from. *)
Lemma parsed_self_irrelevant self self' w : parsed self w = parsed self' w.
Proof. done. Qed.

(** ** First occurrences *)

Lemma first_occurrences_filter k seen l :
  filter (λ b, entry_key b = k) (first_occurrences seen l) =
  if decide (k ∈ seen) then []
  else option_list (head (filter (λ b, entry_key b = k) l)).
Proof.
  revert seen. induction l as [|a l IH]; intros seen; simpl.
  - by destruct (decide (k ∈ seen)).
  - rewrite (filter_cons _ a l).
    destruct (decide (entry_key a ∈ seen)) as [Ha|Ha].
    + rewrite IH. destruct (decide (k ∈ seen)) as [|Hk]; [done|].
      rewrite decide_False; [done|]. intros Heq. apply Hk. by rewrite <- Heq.
    + rewrite filter_cons, IH.
      destruct (decide (entry_key a = k)) as [<-|Hne]; simpl.
      * rewrite decide_True by (by left).
        rewrite decide_False by done. done.
      * destruct (decide (k ∈ seen)) as [Hk|Hk].
        -- rewrite decide_True by (by right). done.
        -- rewrite decide_False; [done|].
           intros [Heq|?]%elem_of_cons; [by apply Hne|done].
Qed.

Lemma first_occurrences_keys seen l :
  NoDup (entry_key <$> first_occurrences seen l) ∧
  ∀ k, k ∈ entry_key <$> first_occurrences seen l → k ∉ seen.
Proof.
  revert seen. induction l as [|a l IH]; intros seen; simpl.
  - split; [constructor|]. intros k Hk. by apply elem_of_nil in Hk.
  - destruct (decide (entry_key a ∈ seen)) as [Ha|Ha]; [apply IH|].
    destruct (IH (entry_key a :: seen)) as [Hnd Hfresh].
    rewrite fmap_cons. split.
    + constructor; [|done]. intros Hin. apply (Hfresh _ Hin). by left.
    + intros k Hk. apply elem_of_cons in Hk as [->|Hk]; [done|].
      intros Hs. apply (Hfresh _ Hk). by right.
Qed.

Lemma first_occurrences_sublist seen l : first_occurrences seen l `sublist_of` l.
Proof.
  revert seen. induction l as [|a l IH]; intros seen; simpl; [done|].
  destruct (decide (entry_key a ∈ seen)).
  - by apply sublist_cons.
  - by apply sublist_skip.
Qed.

Lemma first_occurrences_nil l : first_occurrences [] l = [] ↔ l = [].
Proof.
  split; [|by intros ->]. by destruct l as [|a l].
Qed.

(** The catalog is the fallback entry alone exactly when nothing was
    parsed, and the sorted first occurrences otherwise. *)
Lemma catalog_of_nil : catalog_of [] = [fallback_entry].
Proof. done. Qed.

Lemma catalog_of_cons l :
  l ≠ [] → catalog_of l = sorted sort_key (first_occurrences [] l).
Proof.
  intros Hl. unfold catalog_of. cbv zeta.
  destruct (is_empty _) eqn:E; [|done].
  apply is_empty_true in E. apply (proj1 (sorted_nil _ _)) in E.
  apply (proj1 (first_occurrences_nil _)) in E. congruence.
Qed.

End Builder.

(** ** The catalog builder *)

Section Catalog.
Context {cm : CaseMap}.

(** With no descriptor directory the builder raises. *)
Lemma load_apps_no_directory self w :
  (∀ d, d ∈ DESKTOP_PATHS w → path_exists w d = false) →
  load_apps self w = Raise (UnboundLocalError "filtered").
Proof.
  intros Hno. rewrite load_apps_unfold.
  replace (List.filter (path_exists w) (DESKTOP_PATHS w)) with (@nil Path);
    [done|].
  symmetry. unfold DESKTOP_PATHS in *. simpl.
  rewrite !Hno; [done| |]; set_solver.
Qed.

(** With a directory and nothing parsed, the catalog is the fallback
    entry; whenever the builder returns, the catalog is not empty. *)
Lemma load_apps_fallback self w d :
  d ∈ DESKTOP_PATHS w → path_exists w d = true → parsed self w = [] →
  apps <$> load_apps self w = Ok [fallback_entry].
Proof.
  intros Hd Hex Hnil. rewrite load_apps_unfold, Hnil.
  destruct (List.filter (path_exists w) (DESKTOP_PATHS w)) eqn:E; [|done].
  exfalso. apply list_elem_of_In in Hd.
  assert (In d (List.filter (path_exists w) (DESKTOP_PATHS w))) as Hin
    by by apply filter_In.
  by rewrite E in Hin.
Qed.

Lemma load_apps_nonempty self w s' : load_apps self w = Ok s' → apps s' ≠ [].
Proof.
  rewrite load_apps_unfold. destruct (is_empty _); [done|].
  intros [= <-]. simpl. unfold catalog_of. cbv zeta.
  destruct (is_empty _) eqn:E; [done|]. by apply is_empty_false.
Qed.

(** What a returned catalog is. *)
Lemma load_apps_Ok self w s' :
  load_apps self w = Ok s' →
  apps s' = catalog_of (parsed self w) ∧
  icons_override s' = icons_override self ∧ page_offset s' = page_offset self.
Proof.
  rewrite load_apps_unfold. destruct (is_empty _); [done|]. by intros [= <-].
Qed.

End Catalog.

(** ** Claims about the catalog *)

(** C1. The specification has the build return the single fallback entry
    whenever the combined parse results are empty, also when no descriptor
    directory exists.  With neither directory present the locals [seen] and
    [filtered] were never bound: the build raises [UnboundLocalError] and
    the fallback catalog is not returned. *)
Theorem load_apps_without_directories :
  (∀ d, d ∈ DESKTOP_PATHS world_bare → path_exists world_bare d = false) ∧
  parsed (cm:=ascii_case) self0 world_bare = [] ∧
  load_apps (cm:=ascii_case) self0 world_bare
  = Raise (UnboundLocalError "filtered").
Proof.
  split; [|split]; [|done..].
  intros d Hd. unfold DESKTOP_PATHS in Hd.
  apply elem_of_cons in Hd as [->|Hd]; [done|].
  apply elem_of_cons in Hd as [->|Hd]; [done|].
  by apply elem_of_nil in Hd.
Qed.

(** C3. Deduplication is over the combined parse results of all
    directories, keyed on (name, execCommand): for every key that occurs,
    the catalog holds exactly one entry with it, the first one in scan
    order. *)
Theorem load_apps_dedup `{cm : CaseMap} self w s' (k : str * str) first :
  load_apps self w = Ok s' →
  head (filter (λ b, entry_key b = k) (parsed self w)) = Some first →
  filter (λ b, entry_key b = k) (apps s') = [first].
Proof.
  intros Hload Hfirst. apply load_apps_Ok in Hload as (-> & _ & _).
  assert (parsed self w ≠ []) as Hne.
  { intros E. by rewrite E in Hfirst. }
  rewrite catalog_of_cons by done.
  apply Permutation_singleton_r.
  rewrite sorted_perm, first_occurrences_filter, Hfirst.
  rewrite decide_False by apply not_elem_of_nil. done.
Qed.

Lemma load_apps_dedup_witness :
  filter (λ b, entry_key b = (lit "Editor", lit "editor")) (apps demo_state)
  = [demo_editor].
Proof.
  apply (load_apps_dedup (cm:=ascii_case) self0 world_demo demo_state);
    vm_compute; reflexivity.
Defined.

(** C4. The specification has ids unique in a catalog.  Here two descriptors
    with one file name, in the two directories, differ in name and command:
    both are kept, and the catalog holds the id [term] twice. *)
Lemma catalog_ids_repeat :
  load_apps (cm:=ascii_case) self0 world_demo = Ok demo_state ∧
  demo_Top ∈ apps demo_state ∧ demo_top ∈ apps demo_state ∧
  demo_Top ≠ demo_top ∧ app_id demo_Top = app_id demo_top ∧
  ¬ NoDup (app_id <$> apps demo_state).
Proof.
  split; [by vm_compute|].
  split; [by apply (bool_decide_unpack _)|].
  split; [by apply (bool_decide_unpack _)|].
  split; [done|]. split; [done|].
  intros Hnd. apply (bool_decide_pack _) in Hnd. by vm_compute in Hnd.
Qed.

(** C4, amended. No two entries of a catalog have the same
    (name, execCommand) pair; ids are unique when no two parsed descriptors
    share a file-name stem. *)
Theorem catalog_keys_unique `{cm : CaseMap} self w s' :
  load_apps self w = Ok s' →
  NoDup (entry_key <$> apps s') ∧
  (NoDup (app_id <$> parsed self w) → NoDup (app_id <$> apps s')).
Proof.
  intros Hload. apply load_apps_Ok in Hload as (-> & _ & _).
  destruct (decide (parsed self w = [])) as [->|Hne].
  { rewrite catalog_of_nil. split; [|intros _]; apply NoDup_singleton. }
  rewrite catalog_of_cons by done. split.
  - rewrite sorted_perm. apply first_occurrences_keys.
  - intros Hids. rewrite sorted_perm.
    eapply sublist_NoDup; [done|].
    apply fmap_sublist, first_occurrences_sublist.
Qed.

Lemma catalog_keys_unique_witness :
  NoDup (entry_key <$> apps single_state) ∧
  NoDup (app_id <$> apps single_state).
Proof.
  destruct (catalog_keys_unique (cm:=ascii_case) self0 world_single
              single_state) as [Hkeys Hids]; [vm_compute; reflexivity|].
  split; [exact Hkeys|].
  apply Hids. apply (bool_decide_unpack _). vm_compute. exact I.
Defined.



(** C9. With the world unchanged, a second build returns the same
    catalog as the first, entry for entry and in the same order: the outcome
    of a build is the same from any application state, and a build started
    from the state another one left returns that state. *)
Theorem load_apps_deterministic `{cm : CaseMap} self w :
  (∀ self', apps <$> load_apps self' w = apps <$> load_apps self w) ∧
  (∀ s1, load_apps self w = Ok s1 → load_apps s1 w = Ok s1).
Proof.
  split.
  - intros self'. rewrite !load_apps_unfold. by destruct (is_empty _).
  - intros s1 Hload.
    pose proof (load_apps_Ok _ _ _ Hload) as (Ha & Ho & Hp).
    rewrite load_apps_unfold in *.
    destruct (is_empty _); [done|].
    rewrite (parsed_self_irrelevant s1 self), <- Ha, Ho, Hp.
    by injection Hload as <-.
Qed.

Lemma load_apps_deterministic_witness :
  load_apps (cm:=ascii_case) demo_state world_demo = Ok demo_state.
Proof.
  apply (load_apps_deterministic (cm:=ascii_case) self0 world_demo).
  vm_compute; reflexivity.
Defined.

(** C10. The catalog does not depend on the icon overrides loaded at
    start: neither on the value held in the application state, nor, from
    start to first build, on what the override file contains. *)
Theorem catalog_ignores_overrides `{cm : CaseMap} self w :
  (∀ ov,
     apps <$> load_apps {| apps := apps self; icons_override := ov;
                           page_offset := page_offset self |} w
     = apps <$> load_apps self w) ∧
  (∀ j,
     apps <$> load_apps (CyberDesk_init (with_json_load j w))
                        (with_json_load j w)
     = apps <$> load_apps (CyberDesk_init w) w).
Proof.
  split; intros; rewrite !load_apps_unfold; simpl;
    by destruct (is_empty _).
Qed.

(** ** The icon resolver *)

Section Resolver.
Context {cm : CaseMap}.


Lemma direct_under_loop w root stem :
  for_first extensions (λ ext,
    let direct := root // (stem ++ ext) in
    if path_exists w direct then Some (path_str direct) else None)
  = for_first (direct_under root stem) (probe w).
Proof.
  unfold direct_under. rewrite for_first_bind.
  apply for_first_ext; intros ext.
  unfold probe. simpl. by destruct (path_exists _ _).
Qed.

Lemma themed_under_loop w root stem :
  for_first resolutions (λ res,
    for_first subdirs (λ sub,
      for_first extensions (λ ext,
        let candidate := root // res // sub // (stem ++ ext) in
        if path_exists w candidate then Some (path_str candidate) else
        let candidate_lower :=
          root // res // sub // (str_lower stem ++ ext) in
        if path_exists w candidate_lower
        then Some (path_str candidate_lower) else None)))
  = for_first (themed_under root stem) (probe w).
Proof.
  unfold themed_under.
  rewrite for_first_bind. apply for_first_ext; intros res.
  rewrite for_first_bind. apply for_first_ext; intros sub.
  rewrite for_first_bind. apply for_first_ext; intros ext.
  unfold probe. simpl. by repeat destruct (path_exists _ _).
Qed.

(** The two loops of the resolver, as one pass over the candidates. *)
Lemma find_real_icon_path_loops w icon_name :
  icon_name ≠ [] →
  is_absolute (Path_of icon_name) && path_exists w (Path_of icon_name)
    = false →
  find_real_icon_path w icon_name
  = for_first (icon_candidates w (path_stem (Path_of icon_name))) (probe w).
Proof.
  intros Hne Hfast. unfold find_real_icon_path.
  rewrite (proj2 (is_empty_false _) Hne), Hfast. cbv zeta.
  unfold icon_candidates, candidates_in.
  rewrite for_first_app, !for_first_bind, <- !for_first_filter.
  erewrite (for_first_ext (search_roots w)); last first.
  { intros root. by rewrite direct_under_loop. }
  destruct (for_first (search_roots w) _); [done|].
  apply for_first_ext. intros root. by rewrite themed_under_loop.
Qed.





End Resolver.


(** ** The descriptor parser *)

Lemma split_on_hd c s : c ∉ List.hd [] (split_on c s).
Proof.
  induction s as [|d s IH]; simpl; [apply not_elem_of_nil|].
  destruct (N.eqb_spec d c) as [->|Hdc]; simpl; [apply not_elem_of_nil|].
  destruct (split_on c s) as [|x xs]; simpl in *.
  - intros [?|?%elem_of_nil]%elem_of_cons; done.
  - intros [?|?]%elem_of_cons; done.
Qed.

Lemma lstrip_elem c s : c ∈ lstrip s → c ∈ s.
Proof.
  induction s as [|d s IH]; simpl; [done|].
  destruct (py_isspace d); [|done]. intros H. right. by apply IH.
Qed.

Lemma strip_elem c s : c ∈ strip s → c ∈ s.
Proof.
  unfold strip. rewrite !list_elem_of_In, <- in_rev, <- !list_elem_of_In.
  intros H%lstrip_elem. apply lstrip_elem.
  by rewrite list_elem_of_In, in_rev, <- list_elem_of_In.
Qed.

Lemma filter_not_field_code toks :
  Forall (λ t, startswith t [percent] = false)
         (List.filter (λ p, negb (startswith p [percent])) toks).
Proof.
  apply Forall_forall. intros t [_ Ht]%list_elem_of_In%filter_In.
  by apply negb_true_iff.
Qed.

(** The glyph loop returns the value of the first key that matches. *)
Lemma glyph_loop text :
  for_first ICON_MAP (λ '(k, v), if contains text k then Some v else None)
  = first_keyword_glyph text.
Proof.
  unfold first_keyword_glyph. rewrite <- for_first_find.
  apply for_first_ext. by intros [k v].
Qed.

(** No glyph of the table is the question mark the loop starts from. *)
Lemma first_keyword_glyph_not_question text v :
  first_keyword_glyph text = Some v → str_eqb v (lit "?") = false.
Proof.
  unfold first_keyword_glyph.
  destruct (List.find _ ICON_MAP) as [[k v']|] eqn:E; [|done].
  intros [= <-]. apply find_some in E as [Hin _].
  assert (Forall (λ kv, str_eqb (snd kv) (lit "?") = false) ICON_MAP) as Hall.
  { unfold ICON_MAP. repeat constructor. }
  rewrite Forall_forall in Hall. apply list_elem_of_In in Hin.
  apply (Hall _ Hin).
Qed.

Section Parser.
Context {cm : CaseMap}.

(** The fields of the entry [parse_desktop] returns, from the values the
    descriptor declares. *)
Lemma parse_desktop_Some self w path e :
  parse_desktop self w path = Some e →
  let name := descriptor_value w path (lit "Name") (path_stem path) in
  let exec_clean := clean_exec (descriptor_value w path (lit "Exec") []) in
  let icon_name := descriptor_value w path (lit "Icon") [] in
  app_id e = path_stem path ∧ Name e = name ∧ Exec e = exec_clean ∧
  icon_path e = find_real_icon_path w icon_name ∧
  icon e = glyph_for (icon_path e) exec_clean icon_name name.
Proof.
  unfold parse_desktop, descriptor_value.
  destruct (cfg_read w path) as [|defaults sections]; [done|].
  destruct (assoc _ sections) as [entry|]; [|done].
  destruct (str_eqb _ _); [done|]. by intros [= <-].
Qed.

(** C2, amended. For an accepted descriptor: with an icon path resolved
    the glyph is the question mark; with none, it is the value of the first
    keyword of the table found in the lower-cased command and icon name,
    or else the first character of the name in upper case, which is empty
    when the name is.  The placeholder for an empty glyph comes only when
    the widget is built, so the glyph displayed is never empty. *)
Theorem parse_desktop_glyph self w path e :
  parse_desktop self w path = Some e →
  let icon_name := descriptor_value w path (lit "Icon") [] in
  (icon_path e = None →
     icon e = match first_keyword_glyph
                      (str_lower (Exec e ++ lit " " ++ icon_name)) with
              | Some v => v
              | None => str_upper (take 1 (Name e))
              end) ∧
  (∀ p, icon_path e = Some p → p ≠ [] → icon e = lit "?") ∧
  icon_char (AppIcon_of_entry e) ≠ [].
Proof.
  intros Hparse icon_name.
  apply parse_desktop_Some in Hparse as (_ & Hname & Hexec & _ & ->).
  rewrite <- Hname, <- Hexec. fold icon_name. split; [|split].
  - intros ->. unfold glyph_for. rewrite glyph_loop.
    destruct (first_keyword_glyph _) as [v|] eqn:E; [|done].
    by rewrite (first_keyword_glyph_not_question _ _ E).
  - intros p -> Hp. unfold glyph_for.
    by rewrite (proj2 (is_empty_false _) Hp).
  - unfold AppIcon_of_entry, AppIcon_init, str_or. simpl.
    destruct (is_empty _) eqn:E; [done|]. by apply is_empty_false.
Qed.

(** C7, amended. The command of an accepted descriptor: when the raw
    value tokenizes, the tokens that do not begin with a percent sign,
    joined by single spaces; when it does not, the raw value up to its
    first percent sign, stripped, which holds no percent sign at all. *)
Theorem parse_desktop_exec self w path e :
  parse_desktop self w path = Some e →
  let raw_exec := descriptor_value w path (lit "Exec") [] in
  match shlex_split raw_exec with
  | Some toks =>
      let kept := List.filter (λ p, negb (startswith p [percent])) toks in
      Exec e = join (lit " ") kept ∧
      Forall (λ t, startswith t [percent] = false) kept
  | None =>
      Exec e = strip (List.hd [] (split_on percent raw_exec)) ∧
      percent ∉ Exec e
  end ∧
  (raw_exec = lit "app %U --flag %f" → Exec e = lit "app --flag").
Proof.
  intros Hparse raw_exec.
  apply parse_desktop_Some in Hparse as (_ & _ & -> & _ & _).
  fold raw_exec. split; [|by intros ->].
  unfold clean_exec.
  destruct raw_exec as [|c raw] eqn:Eraw; simpl is_empty; cbv iota.
  - simpl. split; [done|constructor].
  - destruct (shlex_split (c :: raw)) as [toks|].
    + split; [done|apply filter_not_field_code].
    + split; [done|]. intros H%strip_elem. by apply split_on_hd in H.
Qed.

End Parser.

(** C2. The specification has the glyph of an accepted descriptor never
    empty, an empty name giving a placeholder.  Here a descriptor with an empty
    name, no icon and no keyword in its command is accepted with the empty
    string as its glyph. *)
Lemma parse_desktop_empty_glyph :
  parse_desktop (cm:=ascii_case) self0 world_demo (demo_dir1 // lit "Anon.desktop")
  = Some demo_anon ∧
  Name demo_anon = [] ∧ icon_path demo_anon = None ∧
  first_keyword_glyph (str_lower (CaseMap:=ascii_case)
                         (Exec demo_anon ++ lit " " ++ [])) = None ∧
  icon demo_anon = [].
Proof. by vm_compute. Qed.

Lemma parse_desktop_glyph_witness :
  icon demo_editor = lit "E" ∧
  icon_char (AppIcon_of_entry demo_editor) ≠ [].
Proof.
  destruct (parse_desktop_glyph (cm:=ascii_case) self0 world_demo
              (demo_dir1 // lit "editor.desktop") demo_editor)
    as (Hglyph & _ & Hshown); [vm_compute; reflexivity|].
  split; [|exact Hshown].
  rewrite Hglyph; vm_compute; reflexivity.
Defined.

(** C7. The specification has the command never hold a token that begins
    with a percent sign.  Here the field code stands inside a quoted argument: the
    token survives, and the joined command, split again as the launcher
    does, has the token [%f]. *)
Lemma parse_desktop_keeps_quoted_field_code :
  descriptor_value (cm:=ascii_case) world_demo (demo_dir2 // lit "wrap.desktop")
    (lit "Exec") [] = lit "sh -c 'echo %f'" ∧
  shlex_split (lit "sh -c 'echo %f'")
  = Some [lit "sh"; lit "-c"; lit "echo %f"] ∧
  parse_desktop (cm:=ascii_case) self0 world_demo (demo_dir2 // lit "wrap.desktop")
  = Some demo_wrap ∧
  Exec demo_wrap = lit "sh -c echo %f" ∧
  split_command (Exec demo_wrap)
  = [lit "sh"; lit "-c"; lit "echo"; lit "%f"] ∧
  Exists (λ t, startswith t [percent] = true) (split_command (Exec demo_wrap)).
Proof.
  repeat (split; [by vm_compute|]).
  apply Exists_exists. exists (lit "%f"). split; [|done].
  apply (bool_decide_unpack _). by vm_compute.
Qed.

Lemma parse_desktop_exec_witness :
  Exec demo_app = lit "app --flag".
Proof.
  destruct (parse_desktop_exec (cm:=ascii_case) self0 world_single
              (demo_dir1 // lit "zed.desktop") demo_app)
    as [_ Hexample]; [vm_compute; reflexivity|].
  apply Hexample. vm_compute; reflexivity.
Defined.

(** ** The launch executor *)

Lemma probe_terminals_none w (ts : list (str * str)) :
  (∀ term flag, (term, flag) ∈ ts → which w term = false) →
  probe_terminals w ts = ((λ t, EWhich (fst t)) <$> ts, None).
Proof.
  induction ts as [|[term flag] ts IH]; intros Hno; simpl; [done|].
  rewrite (Hno term flag) by by left.
  rewrite IH; [done|]. intros t f Hin. apply (Hno t f). by right.
Qed.

(** C8. The specification has the launch report that no terminal is
    available for every non-empty command, when a terminal is required and
    no emulator is on the search path.  Here the command is one space, which the parser makes of two
    empty quoted arguments: it has no token, and the launch returns after
    its two log lines, reporting nothing. *)
Lemma launch_blank_command_silent :
  parse_desktop (cm:=ascii_case) self0 world_demo (demo_dir2 // lit "alpha.desktop")
  = Some demo_blank ∧
  command (AppIcon_of_entry demo_blank) ≠ [] ∧
  is_terminal (AppIcon_of_entry demo_blank) = true ∧
  (∀ term flag, (term, flag) ∈ terminals → which world_bare term = false) ∧
  launch_app world_bare (AppIcon_of_entry demo_blank)
  = [ELog (LogClick (lit " ")); ELog (LogNeedsTerminal true)] ∧
  ENotify msg_no_terminal Error
    ∉ launch_app world_bare (AppIcon_of_entry demo_blank).
Proof.
  split; [by vm_compute|]. split; [done|]. split; [done|].
  split; [|split; [by vm_compute|]].
  - intros term flag _. by vm_compute.
  - intros Hin. apply (bool_decide_pack _) in Hin. by vm_compute in Hin.
Qed.

(** C8, amended. For an entry that requires a terminal and whose command
    has at least one token: when no emulator of the list is on the search
    path, the launch probes the eight emulators in order, logs and notifies
    the error, and returns; there is no look-up of the command itself and no
    process creation. *)
Theorem launch_no_terminal w self :
  is_terminal self = true →
  split_command (command self) ≠ [] →
  (∀ term flag, (term, flag) ∈ terminals → which w term = false) →
  launch_app w self
  = [ELog (LogClick (command self)); ELog (LogNeedsTerminal true);
     ELog LogSearchTerminal]
    ++ ((λ t, EWhich (fst t)) <$> terminals)
    ++ [ELog LogNoTerminal; ENotify msg_no_terminal Error] ∧
  ∀ argv, EPopen argv ∉ launch_app w self.
Proof.
  intros Hterm Htoks Hno.
  assert (launch_app w self
    = [ELog (LogClick (command self)); ELog (LogNeedsTerminal true);
       ELog LogSearchTerminal]
      ++ ((λ t, EWhich (fst t)) <$> terminals)
      ++ [ELog LogNoTerminal; ENotify msg_no_terminal Error]) as Hrun.
  { unfold launch_app. rewrite Hterm.
    destruct (command self) as [|c cmd] eqn:Ecmd; [done|].
    simpl is_empty. cbv iota zeta.
    rewrite (proj2 (is_empty_false _) Htoks).
    by rewrite (probe_terminals_none w terminals Hno). }
  split; [done|]. rewrite Hrun. intros argv Hin.
  repeat (apply elem_of_cons in Hin as [Hin|Hin]; [done|]).
  by apply elem_of_nil in Hin.
Qed.

Lemma launch_no_terminal_witness :
  launch_app world_bare (AppIcon_of_entry fallback_entry)
  = [ELog (LogClick (lit "bash")); ELog (LogNeedsTerminal true);
     ELog LogSearchTerminal]
    ++ ((λ t, EWhich (fst t)) <$> terminals)
    ++ [ELog LogNoTerminal; ENotify msg_no_terminal Error].
Proof.
  destruct (launch_no_terminal world_bare (AppIcon_of_entry fallback_entry))
    as [Hrun _]; [reflexivity|by vm_compute| |exact Hrun].
  intros term flag _. vm_compute. reflexivity.
Defined.

(** * Further properties of the code *)

(** ** The launch executor, on all its paths *)

(** The loop over the emulators finds the first one on the search path,
    and looks up nothing but emulators. *)
Lemma probe_terminals_spec w (ts : list (str * str)) :
  snd (probe_terminals w ts) = List.find (λ tf, which w (fst tf)) ts ∧
  Forall (λ e, is_log e = true ∨ ∃ tf, tf ∈ ts ∧ e = EWhich (fst tf))
         (fst (probe_terminals w ts)).
Proof.
  induction ts as [|[term flag] ts [IHfound IHevs]]; simpl.
  - split; [done|constructor].
  - destruct (which w term) eqn:E; simpl.
    + split; [done|].
      constructor; [|constructor; [by left|constructor]].
      right. exists (term, flag). split; [by left|done].
    + destruct (probe_terminals w ts) as [evs found]. simpl in *.
      split; [done|]. constructor.
      * right. exists (term, flag). split; [by left|done].
      * eapply Forall_impl; [exact IHevs|]. intros e [?|(tf & ? & ?)].
        -- by left.
        -- right. exists tf. split; [by right|done].
Qed.

Lemma find_which_true w (ts : list (str * str)) term flag :
  List.find (λ tf, which w (fst tf)) ts = Some (term, flag) →
  (term, flag) ∈ ts ∧ which w term = true.
Proof. intros [Hin Hw]%find_some. by apply list_elem_of_In in Hin. Qed.

(** Every emulator of the list comes with a flag. *)
Lemma terminals_flag term flag :
  (term, flag) ∈ terminals → is_empty flag = false.
Proof.
  assert (Forall (λ tf, is_empty (snd tf) = false) terminals) as Hall
    by (unfold terminals; repeat constructor).
  rewrite Forall_forall in Hall. intros Hin. apply (Hall _ Hin).
Qed.

Lemma spawn_popen w self parts e :
  e ∈ spawn w self parts → is_popen e = true →
  e = EPopen parts ∧ which w (List.hd [] parts) = true.
Proof.
  unfold spawn. destruct (which w (List.hd [] parts)) eqn:E; simpl.
  - destruct (popen_error w parts);
      intros Hin Hp;
      repeat (apply elem_of_cons in Hin as [->|Hin]; [by simplify_eq/=|]);
      by apply elem_of_nil in Hin.
  - intros Hin Hp.
    repeat (apply elem_of_cons in Hin as [->|Hin]; [by simplify_eq/=|]).
    by apply elem_of_nil in Hin.
Qed.

Lemma spawn_count w self parts :
  length (List.filter is_popen (spawn w self parts))
  = if which w (List.hd [] parts) then 1 else 0.
Proof.
  unfold spawn. destruct (which w (List.hd [] parts)); simpl; [|done].
  by destruct (popen_error w parts).
Qed.

Lemma spawn_reports w self parts :
  (EPopen parts ∈ spawn w self parts ∧
   which w (List.hd [] parts) = true ∧
   ∀ err, popen_error w parts = Some err →
          ENotify (cross_mark :: lit " " ++ err) Error ∈ spawn w self parts) ∨
  (which w (List.hd [] parts) = false ∧
   ENotify (cross_mark :: lit " Non trovato: " ++ List.hd [] parts) Error
     ∈ spawn w self parts ∧
   ∀ e, e ∈ spawn w self parts → is_popen e = false).
Proof.
  unfold spawn. destruct (which w (List.hd [] parts)) eqn:E; simpl.
  - left. split; [|split; [done|]].
    + do 3 right. by left.
    + intros err ->. do 5 right. by left.
  - right. split; [done|]. split; [do 2 right; by left|].
    intros e Hin.
    repeat (apply elem_of_cons in Hin as [->|Hin]; [done|]).
    by apply elem_of_nil in Hin.
Qed.

Lemma not_popen_probe w e :
  e ∈ fst (probe_terminals w terminals) → is_popen e = false.
Proof.
  intros Hin. destruct (probe_terminals_spec w terminals) as [_ Hall].
  rewrite Forall_forall in Hall.
  destruct (Hall _ Hin) as [Hlog|(tf & _ & ->)]; [by destruct e|done].
Qed.

(** The events of a launch, case by case. *)
Lemma launch_app_unfold w self :
  launch_app w self =
  [ ELog (LogClick (command self));
    ELog (LogNeedsTerminal (is_terminal self)) ] ++
  if is_empty (command self) then [ ELog LogNoCommand ] else
  let tokens := split_command (command self) in
  if is_empty tokens then [] else
  if is_terminal self then
    ELog LogSearchTerminal :: fst (probe_terminals w terminals) ++
    match List.find (λ tf, which w (fst tf)) terminals with
    | Some (term, flag) =>
        ELog (LogFinalCommand (term :: flag :: tokens))
          :: spawn w self (term :: flag :: tokens)
    | None => [ ELog LogNoTerminal; ENotify msg_no_terminal Error ]
    end
  else spawn w self tokens.
Proof.
  unfold launch_app. f_equal.
  destruct (is_empty (command self)); [done|]. cbv zeta.
  destruct (is_empty (split_command (command self))); [done|].
  destruct (is_terminal self); [|done].
  destruct (probe_terminals_spec w terminals) as [Hfound _].
  destruct (probe_terminals w terminals) as [probes found].
  cbn [fst snd] in *. subst found.
  destruct (List.find (λ tf, which w (fst tf)) terminals)
    as [[term flag]|] eqn:E; [|done].
  apply find_which_true in E as [Hin _].
  by rewrite (terminals_flag _ _ Hin).
Qed.

(** Membership in an explicit list, case by case. *)
Ltac elem_cases H :=
  repeat (apply elem_of_cons in H as [H|H]; [try (subst; done)|]);
  try (by apply elem_of_nil in H).

(** X1. A process is created only with the argument vector of the
    launch, only after its executable was found on the search path, and
    only once. *)
Theorem launch_spawn_checked w self argv :
  EPopen argv ∈ launch_app w self →
  launch_argv w self = Some argv ∧
  which w (List.hd [] argv) = true ∧
  length (List.filter is_popen (launch_app w self)) = 1.
Proof.
  rewrite launch_app_unfold. unfold launch_argv. cbv zeta.
  intros Hin. apply elem_of_app in Hin as [Hin|Hin]; [elem_cases Hin|].
  destruct (is_empty (command self)); [elem_cases Hin|].
  destruct (is_empty (split_command (command self)));
    [by apply elem_of_nil in Hin|].
  destruct (is_terminal self).
  - apply elem_of_cons in Hin as [Hin|Hin]; [done|].
    apply elem_of_app in Hin as [Hin|Hin];
      [by apply not_popen_probe in Hin|].
    assert (length (List.filter is_popen (fst (probe_terminals w terminals)))
            = 0) as Hprobe.
    { apply length_zero_iff_nil.
      destruct (List.filter _ _) as [|e l] eqn:E; [done|].
      assert (In e (List.filter is_popen (fst (probe_terminals w terminals))))
        as [He Hp]%filter_In by (rewrite E; by left).
      apply list_elem_of_In, not_popen_probe in He. congruence. }
    destruct (List.find _ terminals) as [[term flag]|]; [|elem_cases Hin].
    apply elem_of_cons in Hin as [Hin|Hin]; [done|].
    apply spawn_popen in Hin as [[= ->] Hw]; [|done].
    split; [done|]. split; [done|].
    revert Hprobe. generalize (fst (probe_terminals w terminals)).
    intros probes Hprobe. simpl.
    rewrite List.filter_app, length_app, Hprobe. simpl.
    by rewrite spawn_count, Hw.
  - apply spawn_popen in Hin as [[= ->] Hw]; [|done].
    split; [done|]. split; [done|]. simpl.
    by rewrite spawn_count, Hw.
Qed.

Lemma launch_spawn_checked_witness :
  launch_argv world_kitty (AppIcon_of_entry fallback_entry)
  = Some [lit "kitty"; lit "-e"; lit "bash"] ∧
  which world_kitty (lit "kitty") = true ∧
  length (List.filter is_popen
            (launch_app world_kitty (AppIcon_of_entry fallback_entry))) = 1.
Proof.
  apply (launch_spawn_checked world_kitty (AppIcon_of_entry fallback_entry)
           [lit "kitty"; lit "-e"; lit "bash"]).
  apply (bool_decide_unpack _). vm_compute. exact I.
Defined.

Lemma tokens_command cmd : split_command cmd ≠ [] → is_empty cmd = false.
Proof. by destruct cmd. Qed.

(** X2. A launch whose command has a token is never silent: either a
    process is created, and an exception of the creation is notified as an
    error with its message; or no process is created and an error is
    notified. *)
Theorem launch_never_silent w self :
  split_command (command self) ≠ [] →
  (∃ argv, EPopen argv ∈ launch_app w self ∧
     ∀ err, popen_error w argv = Some err →
            ENotify (cross_mark :: lit " " ++ err) Error ∈ launch_app w self) ∨
  ((∃ message, ENotify message Error ∈ launch_app w self) ∧
   ∀ e, e ∈ launch_app w self → is_popen e = false).
Proof.
  intros Htoks. rewrite launch_app_unfold. cbv zeta.
  rewrite (tokens_command _ Htoks), (proj2 (is_empty_false _) Htoks).
  destruct (is_terminal self).
  - destruct (List.find _ terminals) as [[term flag]|] eqn:E.
    + destruct (spawn_reports w self
                  (term :: flag :: split_command (command self)))
        as [(Hp & _ & Herr)|(Hw & _)].
      * left. eexists. split.
        -- do 3 right. apply elem_of_app. right. right. exact Hp.
        -- intros err He. do 3 right. apply elem_of_app. right. right.
           by apply Herr.
      * apply find_which_true in E as [_ E]. simpl in Hw. congruence.
    + right. split.
      * exists msg_no_terminal. do 3 right. apply elem_of_app. right.
        right. by left.
      * intros e Hin. apply elem_of_app in Hin as [Hin|Hin];
          [elem_cases Hin|].
        apply elem_of_cons in Hin as [->|Hin]; [done|].
        apply elem_of_app in Hin as [Hin|Hin];
          [by apply not_popen_probe in Hin|].
        elem_cases Hin.
  - destruct (spawn_reports w self (split_command (command self)))
      as [(Hp & _ & Herr)|(Hw & Hn & Hnp)].
    + left. eexists. split.
      * do 2 right. exact Hp.
      * intros err He. do 2 right. by apply Herr.
    + right. split.
      * eexists. do 2 right. exact Hn.
      * intros e Hin. apply elem_of_app in Hin as [Hin|Hin];
          [elem_cases Hin|]. by apply Hnp.
Qed.

Lemma launch_never_silent_witness :
  (∃ argv, EPopen argv
             ∈ launch_app world_kitty (AppIcon_of_entry fallback_entry) ∧
     ∀ err, popen_error world_kitty argv = Some err →
            ENotify (cross_mark :: lit " " ++ err) Error
              ∈ launch_app world_kitty (AppIcon_of_entry fallback_entry)) ∨
  ((∃ message, ENotify message Error
                 ∈ launch_app world_kitty (AppIcon_of_entry fallback_entry)) ∧
   ∀ e, e ∈ launch_app world_kitty (AppIcon_of_entry fallback_entry) →
        is_popen e = false).
Proof.
  apply (launch_never_silent world_kitty (AppIcon_of_entry fallback_entry)).
  by vm_compute.
Defined.

(** X3. A launch whose command has no token, empty or blank, only writes
    to the log: no look-up, no notification, no process. *)
Theorem launch_without_tokens w self :
  split_command (command self) = [] →
  Forall (λ e, is_log e = true) (launch_app w self).
Proof.
  intros Htoks. rewrite launch_app_unfold. cbv zeta. rewrite Htoks.
  destruct (is_empty (command self)); simpl; repeat constructor.
Qed.

Lemma launch_without_tokens_witness :
  Forall (λ e, is_log e = true)
         (launch_app world_kitty (AppIcon_of_entry demo_blank)).
Proof.
  apply (launch_without_tokens world_kitty (AppIcon_of_entry demo_blank)).
  vm_compute. reflexivity.
Defined.

(** X4. A terminal application is started in the first emulator of the
    list that is on the search path, as emulator, flag, then the tokens of
    the command.  Only emulators are looked up: the command itself is never
    resolved, and its absence from the search path does not stop the
    launch. *)
Theorem launch_in_terminal w self term flag :
  is_terminal self = true →
  split_command (command self) ≠ [] →
  List.find (λ tf, which w (fst tf)) terminals = Some (term, flag) →
  EPopen (term :: flag :: split_command (command self)) ∈ launch_app w self ∧
  ∀ c, EWhich c ∈ launch_app w self → c ∈ fst <$> terminals.
Proof.
  intros Hterm Htoks Hfind. rewrite launch_app_unfold. cbv zeta.
  rewrite (tokens_command _ Htoks), (proj2 (is_empty_false _) Htoks).
  rewrite Hterm, Hfind.
  pose proof (find_which_true _ _ _ _ Hfind) as [Hin Hw].
  assert (spawn w self (term :: flag :: split_command (command self))
          = [ EWhich term;
              ENotify (rocket :: lit " " ++ app_name self) Information;
              ELog LogSpawning;
              EPopen (term :: flag :: split_command (command self)) ] ++
            match popen_error w
                    (term :: flag :: split_command (command self)) with
            | None => [ ELog LogSpawned ]
            | Some e => [ ELog (LogPopenException e);
                          ENotify (cross_mark :: lit " " ++ e) Error ]
            end) as ->.
  { unfold spawn. cbn [List.hd]. by rewrite Hw. }
  split.
  - do 3 right. apply elem_of_app. right. do 4 right. by left.
  - intros c Hc. apply elem_of_app in Hc as [Hc|Hc]; [elem_cases Hc|].
    apply elem_of_cons in Hc as [Hc|Hc]; [done|].
    apply elem_of_app in Hc as [Hc|Hc].
    + destruct (probe_terminals_spec w terminals) as [_ Hall].
      rewrite Forall_forall in Hall.
      destruct (Hall _ Hc) as [Hlog|(tf & Htf & [= ->])]; [done|].
      apply list_elem_of_fmap. by exists tf.
    + apply elem_of_cons in Hc as [Hc|Hc]; [done|].
      apply elem_of_app in Hc as [Hc|Hc].
      * elem_cases Hc. injection Hc as ->.
        apply list_elem_of_fmap. by exists (term, flag).
      * destruct (popen_error w _); elem_cases Hc.
Qed.

Lemma launch_in_terminal_witness :
  EPopen [lit "kitty"; lit "-e"; lit "top"]
    ∈ launch_app world_kitty (AppIcon_of_entry demo_Top) ∧
  which world_kitty (lit "top") = false.
Proof.
  destruct (launch_in_terminal world_kitty (AppIcon_of_entry demo_Top)
              (lit "kitty") (lit "-e")) as [Hspawn _];
    [reflexivity|by vm_compute|vm_compute; reflexivity|].
  split; [exact Hspawn|vm_compute; reflexivity].
Defined.

(** X5. An application that needs no terminal is started with the tokens
    of its command when the first token is on the search path; when it is
    not, the error names it and no process is created.  No other command is
    looked up. *)
Theorem launch_direct w self :
  is_terminal self = false →
  split_command (command self) ≠ [] →
  let tokens := split_command (command self) in
  let executable := List.hd [] tokens in
  (which w executable = true → EPopen tokens ∈ launch_app w self) ∧
  (which w executable = false →
     ENotify (cross_mark :: lit " Non trovato: " ++ executable) Error
       ∈ launch_app w self ∧
     ∀ e, e ∈ launch_app w self → is_popen e = false) ∧
  ∀ c, EWhich c ∈ launch_app w self → c = executable.
Proof.
  intros Hterm Htoks tokens executable. rewrite launch_app_unfold. cbv zeta.
  rewrite (tokens_command _ Htoks), (proj2 (is_empty_false _) Htoks).
  rewrite Hterm. fold tokens.
  destruct (spawn_reports w self tokens)
    as [(Hp & Hw & _)|(Hw & Hn & Hnp)]; fold executable in Hw.
  - split; [|split].
    + intros _. by do 2 right.
    + intros Hw'. congruence.
    + intros c Hc. apply elem_of_app in Hc as [Hc|Hc]; [elem_cases Hc|].
      unfold spawn in Hc. fold executable in Hc. rewrite Hw in Hc.
      simpl in Hc. apply elem_of_cons in Hc as [[= ->]|Hc]; [done|].
      destruct (popen_error w tokens); elem_cases Hc.
  - split; [|split].
    + intros Hw'. congruence.
    + intros _. split; [by do 2 right|].
      intros e Hin. apply elem_of_app in Hin as [Hin|Hin];
        [elem_cases Hin|]. by apply Hnp.
    + intros c Hc. apply elem_of_app in Hc as [Hc|Hc]; [elem_cases Hc|].
      unfold spawn in Hc. fold executable in Hc. rewrite Hw in Hc.
      simpl in Hc. apply elem_of_cons in Hc as [[= ->]|Hc]; [done|].
      elem_cases Hc.
Qed.

Lemma launch_direct_witness :
  ENotify (cross_mark :: lit " Non trovato: " ++ lit "editor") Error
    ∈ launch_app world_kitty (AppIcon_of_entry demo_editor).
Proof.
  destruct (launch_direct world_kitty (AppIcon_of_entry demo_editor))
    as (_ & Hmissing & _); [reflexivity|by vm_compute|].
  apply Hmissing. vm_compute. reflexivity.
Defined.

(** ** The icon resolver: what it returns *)

Section ResolverMore.
Context {cm : CaseMap}.

(** X6. The resolver never invents a path: what it returns is the text
    of a path that exists, either the icon name itself as an absolute path
    or one of the candidates for its stem. *)
Theorem find_real_icon_path_sound w icon_name found :
  find_real_icon_path w icon_name = Some found →
  ∃ p, path_exists w p = true ∧ found = path_str p ∧
       (p = Path_of icon_name ∨
        p ∈ icon_candidates w (path_stem (Path_of icon_name))).
Proof.
  intros Hfound.
  destruct icon_name as [|c name] eqn:Ename; [done|]. rewrite <- Ename in *.
  assert (icon_name ≠ []) as Hne by (by rewrite Ename).
  destruct (is_absolute (Path_of icon_name)
            && path_exists w (Path_of icon_name)) eqn:Efast.
  - unfold find_real_icon_path in Hfound.
    rewrite (proj2 (is_empty_false _) Hne), Efast in Hfound.
    injection Hfound as <-. apply andb_true_iff in Efast as [_ Hex].
    exists (Path_of icon_name). by auto.
  - rewrite (find_real_icon_path_loops w icon_name Hne Efast) in Hfound.
    unfold probe in Hfound.
    rewrite (for_first_find (path_exists w) path_str) in Hfound.
    destruct (List.find _ _) as [p|] eqn:E; [|done].
    injection Hfound as <-. apply find_some in E as [Hin Hex].
    exists p. split; [done|]. split; [done|]. right.
    by apply list_elem_of_In.
Qed.

(** X7. A name that is not an existing absolute path is searched by its
    stem alone: directories and the last suffix of the name play no part,
    and two names of one stem resolve alike. *)
Theorem find_real_icon_path_by_stem w name1 name2 :
  name1 ≠ [] → name2 ≠ [] →
  is_absolute (Path_of name1) && path_exists w (Path_of name1) = false →
  is_absolute (Path_of name2) && path_exists w (Path_of name2) = false →
  path_stem (Path_of name1) = path_stem (Path_of name2) →
  find_real_icon_path w name1 = find_real_icon_path w name2.
Proof.
  intros Hne1 Hne2 Hfast1 Hfast2 Hstem.
  rewrite !find_real_icon_path_loops by done. by rewrite Hstem.
Qed.

End ResolverMore.

Lemma find_real_icon_path_sound_witness :
  ∃ p, path_exists world_demo p = true ∧
       lit "/usr/share/icons/hicolor/48x48/apps/zed.svg" = path_str p ∧
       (p = Path_of (lit "zed") ∨
        p ∈ icon_candidates (cm:=ascii_case) world_demo
              (path_stem (Path_of (lit "zed")))).
Proof.
  apply (find_real_icon_path_sound (cm:=ascii_case) world_demo (lit "zed")).
  vm_compute. reflexivity.
Defined.

Lemma find_real_icon_path_by_stem_witness :
  find_real_icon_path (cm:=ascii_case) world_demo (lit "icons/editor.xpm")
  = find_real_icon_path (cm:=ascii_case) world_demo (lit "/opt/editor").
Proof.
  apply (find_real_icon_path_by_stem (cm:=ascii_case) world_demo);
    by vm_compute.
Defined.

(** ** The descriptor parser: the glyph *)

(** No glyph of the table is empty. *)
Lemma first_keyword_glyph_nonempty text v :
  first_keyword_glyph text = Some v → v ≠ [].
Proof.
  unfold first_keyword_glyph.
  destruct (List.find _ ICON_MAP) as [[k v']|] eqn:E; [|done].
  intros [= <-]. apply find_some in E as [Hin _].
  assert (Forall (λ kv, snd kv ≠ []) ICON_MAP) as Hall.
  { unfold ICON_MAP. repeat constructor; done. }
  rewrite Forall_forall in Hall. apply list_elem_of_In in Hin.
  apply (Hall _ Hin).
Qed.

(** X8. Where upper-casing keeps a non-empty string non-empty, the glyph
    of an accepted descriptor is empty only if its name is. *)
Theorem parse_desktop_glyph_of_name `{cm : CaseMap} self w path e :
  (∀ s, s ≠ [] → str_upper s ≠ []) →
  parse_desktop self w path = Some e →
  Name e ≠ [] →
  icon e ≠ [].
Proof.
  intros Hupper Hparse Hname.
  apply parse_desktop_Some in Hparse as (_ & Hn & _ & _ & ->).
  rewrite <- Hn. unfold glyph_for. rewrite glyph_loop.
  destruct (match icon_path e with None => true | Some s => is_empty s end);
    [|done].
  destruct (first_keyword_glyph _) as [v|] eqn:E.
  - rewrite (first_keyword_glyph_not_question _ _ E).
    by apply first_keyword_glyph_nonempty in E.
  - simpl. apply Hupper. by destruct (Name e).
Qed.

Lemma parse_desktop_glyph_of_name_witness :
  icon demo_Top ≠ [].
Proof.
  apply (parse_desktop_glyph_of_name (cm:=ascii_case) self0 world_demo
           (demo_dir1 // lit "term.desktop") demo_Top).
  - intros s Hs. by destruct s.
  - vm_compute. reflexivity.
  - done.
Defined.

(** ** The catalog builder: when it returns, and what *)

Section CatalogMore.
Context {cm : CaseMap}.


(** X10. A catalog holds nothing but parse results, and every parse
    result is in it or has an entry of the same name and command before it
    in scan order standing for it; the fallback entry appears, alone, only
    when nothing was parsed.  A catalog is never empty. *)
Theorem catalog_entries self w s' :
  load_apps self w = Ok s' →
  apps s' ≠ [] ∧
  (∀ b, b ∈ apps s' →
        b ∈ parsed self w ∨ (parsed self w = [] ∧ apps s' = [fallback_entry])) ∧
  (∀ a, a ∈ parsed self w →
        ∃ b, b ∈ apps s' ∧ b ∈ parsed self w ∧ entry_key b = entry_key a).
Proof.
  intros Hload. split; [by eapply load_apps_nonempty|].
  apply load_apps_Ok in Hload as (-> & _ & _).
  destruct (decide (parsed self w = [])) as [Hnil|Hne].
  - rewrite Hnil, catalog_of_nil. split; [by right|].
    intros a Ha. by apply elem_of_nil in Ha.
  - rewrite catalog_of_cons by done. split.
    + intros b Hb. left. rewrite sorted_perm in Hb.
      eapply elem_of_sublist; [exact Hb|apply first_occurrences_sublist].
    + intros a Ha.
      pose proof (first_occurrences_filter (entry_key a) [] (parsed self w))
        as Hf.
      rewrite decide_False in Hf by apply not_elem_of_nil.
      destruct (filter (λ b, entry_key b = entry_key a) (parsed self w))
        as [|b0 l] eqn:E.
      { assert (a ∈ filter (λ b, entry_key b = entry_key a) (parsed self w))
          as Hin by (by apply list_elem_of_filter).
        rewrite E in Hin. by apply elem_of_nil in Hin. }
      simpl in Hf.
      assert (b0 ∈ filter (λ b, entry_key b = entry_key a)
                     (first_occurrences [] (parsed self w))) as Hb0
        by (rewrite Hf; by left).
      apply list_elem_of_filter in Hb0 as [Hkey Hb0].
      exists b0. split; [by rewrite sorted_perm|]. split; [|done].
      eapply elem_of_sublist; [exact Hb0|apply first_occurrences_sublist].
Qed.

(** The keys of the first occurrences are the keys met, each once. *)
Lemma first_occurrences_key_set seen l k :
  k ∈ entry_key <$> first_occurrences seen l ↔
  k ∈ entry_key <$> l ∧ k ∉ seen.
Proof.
  revert seen. induction l as [|a l IH]; intros seen;
    cbn [first_occurrences].
  - split; [intros H; by apply elem_of_nil in H|].
    intros [H _]. by apply elem_of_nil in H.
  - destruct (decide (entry_key a ∈ seen)) as [Ha|Ha].
    + rewrite IH, fmap_cons, elem_of_cons. split.
      * intros [? ?]. split; [by right|done].
      * intros [[Heq|?] ?]; [|done]. by rewrite Heq in *.
    + rewrite !fmap_cons, !elem_of_cons, IH, not_elem_of_cons. split.
      * intros [Heq|(Hk & Hne & Hs)].
        -- split; [by left|]. by rewrite Heq.
        -- split; [by right|done].
      * intros [[Heq|Hk] Hs]; [by left|].
        destruct (decide (k = entry_key a)) as [Heq|Hne]; [by left|].
        right. done.
Qed.

(** X11. When something was parsed, the catalog has one entry for each
    distinct (name, command) pair among the parse results: as many entries
    as distinct pairs, and never more than parse results. *)
Theorem catalog_length self w s' :
  load_apps self w = Ok s' →
  parsed self w ≠ [] →
  length (apps s') = length (remove_dups (entry_key <$> parsed self w)) ∧
  length (apps s') ≤ length (parsed self w).
Proof.
  intros Hload Hne. apply load_apps_Ok in Hload as (-> & _ & _).
  rewrite catalog_of_cons by done. rewrite sorted_perm.
  split.
  - rewrite <- (length_fmap entry_key). apply Permutation_length.
    apply NoDup_Permutation.
    + apply first_occurrences_keys.
    + apply NoDup_remove_dups.
    + intros k. rewrite first_occurrences_key_set, elem_of_remove_dups.
      split; [by intros [? _]|]. intros ?. split; [done|].
      apply not_elem_of_nil.
  - apply sublist_length, first_occurrences_sublist.
Qed.

End CatalogMore.


Lemma catalog_entries_witness :
  ∃ b, b ∈ apps demo_state ∧
       b ∈ parsed (cm:=ascii_case) self0 world_demo ∧
       entry_key b = entry_key demo_editor.
Proof.
  destruct (catalog_entries (cm:=ascii_case) self0 world_demo demo_state)
    as (_ & _ & Hall); [vm_compute; reflexivity|].
  apply Hall. apply (bool_decide_unpack _). by vm_compute.
Defined.

Lemma catalog_length_witness :
  length (apps demo_state) = 7 ∧ length (apps demo_state) ≤ 8.
Proof.
  destruct (catalog_length (cm:=ascii_case) self0 world_demo demo_state)
    as [Hdistinct Hbound]; [vm_compute; reflexivity|by vm_compute|].
  split; [rewrite Hdistinct; vm_compute; reflexivity|exact Hbound].
Defined.

(** ** The grid and its pages *)

#[local] Open Scope Z_scope.

(** X12. The grid gets as many columns of [CARD_WIDTH] as fit in the
    width less the margin of 4, and one column when none fits; the size of
    the screen is left as it is. *)
Theorem refresh_grid_columns_fit v v' :
  refresh_grid_columns (Some v) = Some v' →
  size_width v' = size_width v ∧ size_height v' = size_height v ∧
  1 ≤ grid_size_columns v' ∧
  (4 + CARD_WIDTH ≤ size_width v →
     4 + grid_size_columns v' * CARD_WIDTH ≤ size_width v
       < 4 + (grid_size_columns v' + 1) * CARD_WIDTH) ∧
  (size_width v < 4 + 2 * CARD_WIDTH → grid_size_columns v' = 1).
Proof.
  intros [= <-]. simpl. unfold CARD_WIDTH.
  pose proof (Z.div_mod (size_width v - 4) 32) as Hdm.
  pose proof (Z.mod_pos_bound (size_width v - 4) 32) as Hmod.
  repeat split; lia.
Qed.

Lemma refresh_grid_columns_fit_witness :
  refresh_grid_columns (Some demo_view)
  = Some {| grid_size_columns := 3; size_width := 120; size_height := 40 |} ∧
  4 + 3 * CARD_WIDTH ≤ 120 < 4 + (3 + 1) * CARD_WIDTH.
Proof.
  split; [reflexivity|].
  destruct (refresh_grid_columns_fit demo_view
              {| grid_size_columns := 3; size_width := 120;
                 size_height := 40 |})
    as (_ & _ & _ & Hfit & _); [reflexivity|].
  apply Hfit. by vm_compute.
Defined.

Lemma render_per_page_pos view : 1 ≤ render_per_page view.
Proof. destruct view as [v|]; simpl; lia. Qed.

Lemma nav_per_page_pos view :
  (∀ v, view = Some v → 0 ≤ grid_size_columns v) → 1 ≤ nav_per_page view.
Proof.
  destruct view as [v|]; simpl; [|lia]. intros Hcols.
  specialize (Hcols v eq_refl). unfold int_or.
  destruct (Z.eqb_spec (grid_size_columns v) 0); nia.
Qed.

Lemma nav_render_per_page view :
  (∀ v, view = Some v → 0 ≤ grid_size_columns v) → view ≠ None →
  render_per_page view = nav_per_page view.
Proof.
  intros Hcols Hview. pose proof (nav_per_page_pos view Hcols) as Hpos.
  destruct view as [v|]; [|done]. simpl in *. lia.
Qed.

(** The page of [render_icons]: [per_page] entries from [start] on, or
    what is left of the catalog. *)
Lemma render_icons_mounted self view :
  mounted (render_icons self view)
  = AppIcon_of_entry <$>
      take (Z.to_nat (render_per_page view))
           (drop (Z.to_nat (Z.max 0 (page_offset self))) (apps self)).
Proof.
  unfold render_icons, slice. cbv zeta. simpl. f_equal.
  pose proof (render_per_page_pos view) as Hpos.
  set (start := Z.max 0 (page_offset self)).
  set (n := length (apps self)).
  destruct (decide (start + render_per_page view ≤ Z.of_nat n)) as [Hle|Hgt].
  - f_equal. lia.
  - rewrite !take_ge; [done| |]; rewrite length_drop; lia.
Qed.

Lemma render_icons_length self view :
  length (mounted (render_icons self view))
  = Nat.min (Z.to_nat (render_per_page view))
            (length (apps self) - Z.to_nat (Z.max 0 (page_offset self))).
Proof.
  by rewrite render_icons_mounted, length_fmap, length_take, length_drop.
Qed.

Lemma render_icons_empty self view :
  mounted (render_icons self view) = [] ↔
  (length (apps self) ≤ Z.to_nat (Z.max 0 (page_offset self)))%nat.
Proof.
  pose proof (render_per_page_pos view) as Hpos.
  rewrite <- length_zero_iff_nil, render_icons_length. lia.
Qed.

(** X13. [render_icons] mounts a run of consecutive catalog entries, in
    catalog order, starting at the page offset (at 0 for a negative one)
    and at most a page long.  Nothing is mounted exactly when the offset is
    not below the length of the catalog, as after a reload that shortened
    it.  The page number shown is at least 1. *)
Theorem render_icons_page self view :
  let start := Z.to_nat (Z.max 0 (page_offset self)) in
  let per_page := Z.to_nat (render_per_page view) in
  mounted (render_icons self view)
  = AppIcon_of_entry <$> take per_page (drop start (apps self)) ∧
  length (mounted (render_icons self view))
  = Nat.min per_page (length (apps self) - start) ∧
  (mounted (render_icons self view) = [] ↔
   (length (apps self) ≤ start)%nat) ∧
  1 ≤ status_page (render_icons self view).
Proof.
  intros start per_page.
  pose proof (render_per_page_pos view) as Hpos.
  rewrite render_icons_mounted. fold start per_page.
  assert (length (AppIcon_of_entry <$> take per_page (drop start (apps self)))
          = Nat.min per_page (length (apps self) - start)) as Hlen.
  { by rewrite length_fmap, length_take, length_drop. }
  split; [done|]. split; [done|]. split.
  - rewrite <- length_zero_iff_nil, Hlen. subst per_page. lia.
  - unfold render_icons. simpl.
    pose proof (Z.div_pos (Z.max 0 (page_offset self))
                  (render_per_page view)). lia.
Qed.

(** X14. After a step to the next page the page mounted is a full one:
    a page of entries, or the whole catalog when it is shorter than a
    page.  The step never leaves less than a page after the offset. *)
Theorem change_page_next_full self v direction :
  0 ≤ grid_size_columns v →
  0 < direction →
  let self' := change_page self (Some v) direction in
  page_offset self' + nav_per_page (Some v) ≤ Z.of_nat (length (apps self)) ∧
  length (mounted (render_icons self' (Some v)))
  = Nat.min (length (apps self)) (Z.to_nat (nav_per_page (Some v))).
Proof.
  intros Hcols Hdir self'.
  assert (∀ v', Some v = Some v' → 0 ≤ grid_size_columns v') as Hview
    by (by intros v' [= <-]).
  pose proof (nav_per_page_pos _ Hview) as Hpos.
  rewrite render_icons_length.
  rewrite (nav_render_per_page _ Hview) by done.
  subst self'. unfold change_page. cbv zeta. cbn [apps page_offset].
  rewrite (proj2 (Z.ltb_lt 0 direction) Hdir).
  revert Hpos. generalize (nav_per_page (Some v)). intros per_page Hpos.
  split; lia.
Qed.

Lemma change_page_next_full_witness :
  length (mounted (render_icons (change_page demo_state (Some demo_view) 1)
                                (Some demo_view))) = 2%nat.
Proof.
  destruct (change_page_next_full demo_state demo_view 1) as [_ Hfull];
    [by vm_compute|by vm_compute|].
  rewrite Hfull. vm_compute. reflexivity.
Defined.

(** X15. On a catalog that is not empty, paging keeps the offset below
    the length of the catalog, and a step back never makes it negative: a
    page mounted after a step in either direction is never empty, whatever
    the screen has become in between. *)
Theorem change_page_in_range self view direction :
  apps self ≠ [] →
  (∀ v, view = Some v → 0 ≤ grid_size_columns v) →
  page_offset self < Z.of_nat (length (apps self)) →
  let self' := change_page self view direction in
  apps self' = apps self ∧
  page_offset self' < Z.of_nat (length (apps self)) ∧
  (direction ≤ 0 → 0 ≤ page_offset self' ≤ Z.max 0 (page_offset self)) ∧
  ∀ view', mounted (render_icons self' view') ≠ [].
Proof.
  intros Hne Hview Hoff self'.
  pose proof (nav_per_page_pos _ Hview) as Hpos.
  assert (0 < length (apps self))%nat as Hlen by (destruct (apps self); simpl; [done|lia]).
  assert (page_offset self' < Z.of_nat (length (apps self))
          ∧ (direction ≤ 0 → 0 ≤ page_offset self' ≤ Z.max 0 (page_offset self)))
    as [Hlt Hback].
  { subst self'. unfold change_page. cbv zeta. cbn [page_offset].
    revert Hpos. generalize (nav_per_page view). intros per_page Hpos.
    destruct (Z.ltb_spec 0 direction); split; lia. }
  split; [done|]. split; [done|]. split; [done|].
  intros view' Hnil.
  apply (render_icons_empty self' view') in Hnil.
  change (apps self') with (apps self) in Hnil. lia.
Qed.

Lemma change_page_in_range_witness :
  mounted (render_icons (change_page demo_state None (-1)) None) ≠ [].
Proof.
  destruct (change_page_in_range demo_state None (-1))
    as (_ & _ & _ & Hshown); [done|done|by vm_compute|].
  apply Hshown.
Defined.

#[local] Close Scope Z_scope.

(** ** The resize debounce *)

#[local] Set Warnings "-clear-no-such-hyp".

Lemma on_resize_debounced s k : debounced s k → debounced (on_resize s) (S k).
Proof.
  intros [[Hp Hr]|(t & Ht & Hp & Hr)]; right; exists (next_timer s);
    unfold on_resize; simpl.
  - split; [done|]. split; [|lia].
    rewrite Hp. destruct (resize_timer s); set_solver.
  - split; [done|]. split; [|lia].
    rewrite Ht, Hp. set_solver.
Qed.

Lemma timer_fires_debounced t s k : debounced s k → debounced (timer_fires t s) k.
Proof.
  intros Hs. unfold timer_fires.
  destruct (decide (t ∈ pending s)) as [Hin|Hnin]; [|done].
  destruct Hs as [[Hp Hr]|(t' & Ht & Hp & Hr)].
  - rewrite Hp in Hin. set_solver.
  - left. simpl. split; [|lia]. rewrite Hp in *. set_solver.
Qed.

Lemma ui_step_debounced s k e :
  debounced s k →
  debounced (ui_step s e) (if decide (e = Resize) then S k else k).
Proof.
  destruct e as [|t]; simpl.
  - apply on_resize_debounced.
  - apply timer_fires_debounced.
Qed.

Lemma foldl_debounced events s k :
  debounced s k →
  debounced (foldl ui_step s events) (k + resizes events).
Proof.
  revert s k. induction events as [|e events IH]; intros s k Hs; simpl.
  - by rewrite Nat.add_0_r.
  - apply (ui_step_debounced _ _ e), IH in Hs.
    unfold resizes in *. rewrite filter_cons.
    destruct (decide (e = Resize)); simpl; [|done].
    by rewrite Nat.add_succ_r.
Qed.

Lemma on_resize_pending s k :
  debounced s k → pending (on_resize s) = {[ next_timer s ]}.
Proof.
  intros [[Hp _]|(t & Ht & Hp & _)]; unfold on_resize; simpl.
  - rewrite Hp. destruct (resize_timer s); set_solver.
  - rewrite Ht, Hp. set_solver.
Qed.

Lemma burst_debounced s k burst :
  debounced s k →
  redraws (foldl ui_step s (replicate (S burst) Resize)) = redraws s ∧
  ∃ t, resize_timer (foldl ui_step s (replicate (S burst) Resize)) = Some t ∧
       pending (foldl ui_step s (replicate (S burst) Resize)) = {[ t ]}.
Proof.
  revert s k. induction burst as [|burst IH]; intros s k Hs.
  - simpl. split; [done|]. exists (next_timer s). split; [done|].
    by apply (on_resize_pending s k).
  - change (replicate (S (S burst)) Resize)
      with (Resize :: replicate (S burst) Resize).
    cbn [foldl].
    destruct (IH (ui_step s Resize) (S k)) as [-> Hp];
      [by apply on_resize_debounced|].
    split; [done|exact Hp].
Qed.

(** X16. Whatever the order of resizes and elapsing timers, at most one
    timer is pending, and it is the one the application holds; the redraws
    made and the one still to come never outnumber the resizes.  A burst of
    resizes makes no redraw by itself and leaves exactly one timer pending,
    the last one set. *)
Theorem resize_debounce events :
  let s := ui_run events in
  size (pending s) ≤ 1 ∧
  (∀ t, t ∈ pending s → resize_timer s = Some t) ∧
  redraws s + size (pending s) ≤ resizes events ∧
  ∀ burst,
    let s' := foldl ui_step s (replicate (S burst) Resize) in
    redraws s' = redraws s ∧
    ∃ t, resize_timer s' = Some t ∧ pending s' = {[ t ]}.
Proof.
  intros s.
  assert (debounced s (resizes events)) as Hs.
  { apply (foldl_debounced events resize_init 0). left. by split. }
  split; [|split; [|split]].
  - destruct Hs as [[-> _]|(t & _ & -> & _)];
      [rewrite size_empty|rewrite size_singleton]; lia.
  - intros t Ht. destruct Hs as [[Hp _]|(t' & Hheld & Hp & _)];
      rewrite Hp in Ht; set_solver.
  - destruct Hs as [[-> ?]|(t & _ & -> & ?)];
      [rewrite size_empty|rewrite size_singleton]; lia.
  - intros burst. by apply (burst_debounced s (resizes events)).
Qed.

(** ** From the descriptor to the argument vector *)

Lemma shlex_plain_tests c :
  shlex_plain c = true →
  shlex_whitespace c = false ∧ shlex_quotes c = false ∧
  shlex_escape c = false.
Proof.
  unfold shlex_plain. intros H%negb_true_iff.
  apply orb_false_iff in H as [H ?]. by apply orb_false_iff in H as [? ?].
Qed.

(** Plain characters are added to the word being read. *)
Lemma shlex_run_plain t rest escapedstate token quoted out :
  Forall (λ c, shlex_plain c = true) t →
  shlex_run (t ++ rest) St_word escapedstate token quoted out
  = shlex_run rest St_word escapedstate (token ++ t) quoted out.
Proof.
  intros Ht. revert token.
  induction Ht as [|c t Hc _ IH]; intros token; simpl.
  - by rewrite app_nil_r.
  - apply shlex_plain_tests in Hc as (-> & -> & ->).
    rewrite IH. by rewrite <- app_assoc.
Qed.

(** Plain tokens joined by single spaces are split into themselves. *)
Lemma shlex_run_join toks out :
  Forall plain_token toks →
  shlex_run (join (lit " ") toks) St_ws St_ws [] false out
  = Some (out ++ toks).
Proof.
  intros Htoks. revert out.
  induction Htoks as [|t toks [Hne Hplain] Hrest IH]; intros out.
  - simpl. by rewrite app_nil_r.
  - destruct t as [|c t]; [done|].
    apply Forall_cons in Hplain as [Hc Hplain].
    apply shlex_plain_tests in Hc as (Hws & Hq & He).
    destruct toks as [|t2 toks].
    + cbn [join shlex_run]. rewrite Hws, Hq, He.
      rewrite <- (app_nil_r t) at 1.
      rewrite shlex_run_plain by done. done.
    + change (join (lit " ") ((c :: t) :: t2 :: toks))
        with (c :: (t ++ 32%N :: join (lit " ") (t2 :: toks))).
      cbn [shlex_run]. rewrite Hws, Hq, He.
      rewrite shlex_run_plain by done.
      cbn [shlex_run app]. change (shlex_whitespace 32) with true.
      cbn [is_empty negb orb]. rewrite IH.
      by rewrite <- app_assoc.
Qed.

Section ParseLaunch.
Context {cm : CaseMap}.

(** X17. When the tokens kept of a descriptor's command are plain words,
    not empty and free of whitespace, quotes and backslashes, the launcher
    splits the stored command back into exactly these tokens: the argument
    vector is the descriptor's command without its field codes. *)
Theorem launch_tokens_of_descriptor self w path e toks :
  parse_desktop self w path = Some e →
  shlex_split (descriptor_value w path (lit "Exec") []) = Some toks →
  let kept := List.filter (λ p, negb (startswith p [percent])) toks in
  Forall plain_token kept →
  split_command (command (AppIcon_of_entry e)) = kept.
Proof.
  intros Hparse Hsplit kept Hplain.
  apply parse_desktop_Some in Hparse as (_ & _ & Hexec & _ & _).
  simpl. rewrite Hexec. unfold clean_exec.
  destruct (descriptor_value w path (lit "Exec") []) as [|c raw] eqn:Eraw.
  - simpl. by injection Hsplit as <-.
  - cbn [is_empty]. rewrite Hsplit. fold kept.
    unfold split_command, shlex_split.
    by rewrite (shlex_run_join kept []).
Qed.

End ParseLaunch.

Lemma launch_tokens_of_descriptor_witness :
  split_command (command (AppIcon_of_entry demo_app))
  = [lit "app"; lit "--flag"].
Proof.
  apply (launch_tokens_of_descriptor (cm:=ascii_case) self0 world_single
           (demo_dir1 // lit "zed.desktop") demo_app
           [lit "app"; lit "%U"; lit "--flag"; lit "%f"]).
  - vm_compute. reflexivity.
  - vm_compute. reflexivity.
  - repeat constructor; done.
Defined.

(** ** Start and reload *)

Section StartReload.
Context {cm : CaseMap}.

(** X18. When the application starts and the build returns, the first
    page holds the first entries of the catalog, a page of them or all; it
    is not empty, and every widget on it has a label and a glyph that are
    not empty. *)
Theorem on_mount_first_page w view self' shown :
  on_mount (CyberDesk_init w) w view = Ok (self', shown) →
  mounted shown
  = AppIcon_of_entry <$> take (Z.to_nat (render_per_page view)) (apps self') ∧
  mounted shown ≠ [] ∧
  Forall (λ i, app_name i ≠ [] ∧ icon_char i ≠ []) (mounted shown).
Proof.
  unfold on_mount. intros Hmount.
  destruct (load_apps (CyberDesk_init w) w) as [s|] eqn:Hload; [|done].
  simpl in Hmount. injection Hmount as <- <-.
  pose proof (load_apps_nonempty _ _ _ Hload) as Hne.
  apply load_apps_Ok in Hload as (_ & _ & Hoff). simpl in Hoff.
  pose proof (render_icons_mounted s view) as Hm.
  pose proof (render_icons_empty s view) as Hnil.
  rewrite Hoff in *. simpl in *. split; [done|]. split.
  - rewrite Hnil. destruct (apps s); simpl; [done|lia].
  - rewrite Hm. apply Forall_fmap, Forall_forall. intros a _. simpl.
    unfold str_or. split; destruct (is_empty _) eqn:E; try done;
      by apply is_empty_false.
Qed.

(** X19. A reload replaces the catalog and keeps the page offset and the
    overrides.  The page rendered after it is empty exactly when the new
    catalog is not longer than the offset kept. *)
Theorem reload_keeps_page self w view self' shown :
  reload self w view = Ok (self', shown) →
  apps self' = catalog_of (parsed self w) ∧
  page_offset self' = page_offset self ∧
  icons_override self' = icons_override self ∧
  (mounted shown = [] ↔
   (length (apps self') ≤ Z.to_nat (Z.max 0 (page_offset self)))%nat).
Proof.
  unfold reload. intros Hreload.
  destruct (load_apps self w) as [s|] eqn:Hload; [|done].
  simpl in Hreload. injection Hreload as <- <-.
  apply load_apps_Ok in Hload as (Ha & Ho & Hp).
  split; [done|]. split; [done|]. split; [done|].
  pose proof (render_icons_empty s view) as Hnil.
  by rewrite Hp in Hnil.
Qed.

End StartReload.

Lemma on_mount_first_page_witness :
  mounted (render_icons demo_state (Some demo_view))
  = AppIcon_of_entry <$> take 2 (apps demo_state) ∧
  mounted (render_icons demo_state (Some demo_view)) ≠ [].
Proof.
  destruct (on_mount_first_page (cm:=ascii_case) world_demo (Some demo_view)
              demo_state (render_icons demo_state (Some demo_view)))
    as (Hfirst & Hne & _); [vm_compute; reflexivity|].
  split; [exact Hfirst|exact Hne].
Defined.

Lemma reload_keeps_page_witness :
  page_offset single_state = page_offset demo_state ∧
  mounted (render_icons single_state None) ≠ [].
Proof.
  destruct (reload_keeps_page (cm:=ascii_case) demo_state world_single None
              single_state (render_icons single_state None))
    as (_ & Hoff & _ & Hempty); [vm_compute; reflexivity|].
  split; [exact Hoff|].
  intros Hnil. apply Hempty in Hnil. vm_compute in Hnil. lia.
Defined.
